(** * pi-calcs: a shallow embedding of the three pi programs

    The development follows the repository's layout:
    - [CInt]: the C integer types the sources use (LP64: [unsigned] is 32 bits,
      [long] and [uint_least64_t] are 64 bits), with their wrap-around.
    - [Libc]: the few library routines the programs call ([strtol], [strtoul],
      the integer conversions of [printf]).
    - [Double] and [Single]: IEEE-754 binary64 and binary32 arithmetic, every
      operation rounded to nearest-even (no contraction, no excess precision).
    - [Chudnovsky]: pi_chudnovsky.c.
    - [InfSeries]: pi_infseries.c.
    - [MCarlo]: pi_mcarlo.c.
    - [SpecWords]: what the specification says in words, where a property
      compares the code with it.
    - [Rounding]: the distance between two triplets of doubles, and the
      table of the triplets the merges of short ranges can produce.
    The properties follow, one module for each program: [FormatProofs] and
    [SeriesProofs] for pi_infseries.c, [ChudnovskyProofs], [MCarloProofs];
    then what the code does at and beyond the edges of its inputs:
    [ChudnovskyEdges], [SeriesEdges], [MCarloEdges]. *)

From Stdlib Require Import ZArith List String Ascii Bool Lia Floats.
From Equations Require Import Equations.
Import ListNotations.

Set Warnings "-inexact-float".
Local Open Scope Z_scope.

(** ** C integer types *)

Module CInt.

Definition UINT_MOD : Z := 2 ^ 32.
Definition U64_MOD : Z := 2 ^ 64.
Definition LONG_MAX : Z := 2 ^ 63 - 1.
Definition LONG_MIN : Z := - 2 ^ 63.
Definition ULONG_MAX : Z := 2 ^ 64 - 1.

(** Arithmetic on [unsigned] and on [uint_least64_t] is reduced modulo the
    width of the type. *)
Definition wrap32 (x : Z) : Z := x mod UINT_MOD.
Definition wrap64 (x : Z) : Z := x mod U64_MOD.

(** A [long] result outside the type is undefined behaviour. *)
Definition in_long (x : Z) : bool := (LONG_MIN <=? x) && (x <=? LONG_MAX).

End CInt.

(** ** The C library routines the programs use *)

Module Libc.
Import CInt.

Definition EXIT_SUCCESS : Z := 0.
Definition EXIT_FAILURE : Z := 1.

Definition nl : string := String (ascii_of_nat 10) EmptyString.

(** What a run of a program leaves behind: its exit status and the text it
    wrote to the two streams, or undefined behaviour. *)
Inductive run : Type :=
| Returned (status : Z) (out err : string)
| Undefined.

(** [isspace] in the C locale. *)
Definition is_space (c : ascii) : bool :=
  let n := nat_of_ascii c in
  (Nat.eqb n 32 || (Nat.leb 9 n && Nat.leb n 13))%bool.

Fixpoint skip_spaces (s : string) : string :=
  match s with
  | String c r => if is_space c then skip_spaces r else s
  | EmptyString => s
  end.

Definition digit_val (c : ascii) : option Z :=
  let n := Z.of_nat (nat_of_ascii c) in
  if (48 <=? n) && (n <=? 57) then Some (n - 48) else None.

(** The longest run of decimal digits at the head of [s], as a number. *)
Fixpoint read_digits (s : string) (acc : Z) : Z :=
  match s with
  | String c r =>
      match digit_val c with
      | Some d => read_digits r (10 * acc + d)
      | None => acc
      end
  | EmptyString => acc
  end.

Definition read_sign (s : string) : bool * string :=
  match s with
  | String "-"%char r => (true, r)
  | String "+"%char r => (false, r)
  | _ => (false, s)
  end.

(** [strtol(s, NULL, 10)]: blanks, an optional sign, digits; what follows is
    ignored, no digits give 0, and the value saturates at the ends of [long]. *)
Definition strtol (s : string) : Z :=
  let '(neg, r) := read_sign (skip_spaces s) in
  let m := read_digits r 0 in
  let v := if neg then - m else m in
  Z.max LONG_MIN (Z.min LONG_MAX v).

(** [strtoul(s, NULL, 10)]: the same syntax; a minus sign negates in the
    unsigned type, and an overflowing magnitude gives [ULONG_MAX]. *)
Definition strtoul (s : string) : Z :=
  let '(neg, r) := read_sign (skip_spaces s) in
  let m := read_digits r 0 in
  if ULONG_MAX <? m then ULONG_MAX
  else if neg then wrap64 (- m) else m.

Definition digit_char (d : Z) : ascii := ascii_of_nat (48 + Z.to_nat d).

(** Dividing by a base of at least 4 shortens the binary length: the
    measure under which the digit recursions below terminate. *)
Lemma log2_div_lt n k : 4 <= k -> k <= n -> Z.log2 (n / k) < Z.log2 n.
Proof.
  intros Hk Hn.
  assert (0 < n / k) by (apply Z.div_str_pos; lia).
  apply Z.log2_lt_pow2; [lia|].
  assert (n / k <= n / 2) by (apply Z.div_le_compat_l; lia).
  assert (n < 2 ^ Z.succ (Z.log2 n)) by (apply Z.log2_spec; lia).
  rewrite Z.pow_succ_r in * by (apply Z.log2_nonneg).
  assert (n / 2 < 2 ^ Z.log2 n) by (apply Z.div_lt_upper_bound; lia).
  lia.
Qed.

(** The decimal digits of a non-negative number, most significant first. *)
Equations? dec_digits (n : Z) : list ascii by wf (Z.to_nat (Z.log2 n)) lt :=
  dec_digits n with Z_lt_dec n 10 := {
    | left _ := [digit_char n]
    | right _ := dec_digits (n / 10) ++ [digit_char (n mod 10)] }.
Proof.
  pose proof (log2_div_lt n 10 ltac:(lia) ltac:(lia)).
  pose proof (Z.log2_nonneg (n / 10)). lia.
Qed.

(** [printf("%ld", n)] and [printf("%lu", n)]. *)
Definition printf_ld (n : Z) : list ascii :=
  if n <? 0 then "-"%char :: dec_digits (- n) else dec_digits n.

(** [printf("%03ld", n)]: at least three characters, padded with zeros
    after the sign. *)
Definition printf_03ld (n : Z) : list ascii :=
  let ds := dec_digits (Z.abs n) in
  let sign := if n <? 0 then ["-"%char] else [] in
  sign ++ repeat "0"%char (3 - List.length sign - List.length ds)%nat ++ ds.

End Libc.

(** ** IEEE-754 arithmetic *)

(** [double]: the kernel's binary64 numbers. *)
Module Double.
Import CInt.

(** An integer converted to [double] (exact up to 2^53, rounded to
    nearest-even beyond). *)
Definition of_int (z : Z) : float :=
  SF2Prim (binary_normalize prec emax z 0 false).

(** The integral part of a [double], dropping the fraction; [None] for an
    infinity or a NaN. *)
Definition integral_part (f : float) : option Z :=
  match Prim2SF f with
  | S754_zero _ => Some 0
  | S754_finite s m e =>
      let mag :=
        match e with
        | Zneg p => Z.pos m / 2 ^ Z.pos p
        | _ => Z.pos m * 2 ^ e
        end in
      Some (if s then - mag else mag)
  | S754_infinity _ | S754_nan => None
  end.

(** A [double] converted to [uint_least64_t]: the fraction is dropped, and
    the behaviour is undefined ([None]) when the integral part is not a
    value of the type. *)
Definition to_u64 (f : float) : option Z :=
  match integral_part f with
  | Some v => if (0 <=? v) && (v <? U64_MOD) then Some v else None
  | None => None
  end.

(** A reference [pow] on integral arguments with a non-negative exponent:
    the exact power, correctly rounded.  The programs only raise ten to a
    whole number. *)
Definition pow_integral (x y : float) : float :=
  match integral_part x, integral_part y with
  | Some b, Some k =>
      if PrimFloat.eqb (of_int b) x && PrimFloat.eqb (of_int k) y && (0 <=? k)
      then of_int (b ^ k) else nan
  | _, _ => nan
  end.

End Double.

(** [float]: binary32, computed with the specification's operations at
    precision 24. *)
Module Single.

Definition prec32 : Z := 24.
Definition emax32 : Z := 128.

Definition of_int (z : Z) : spec_float := binary_normalize prec32 emax32 z 0 false.
Definition mul : spec_float -> spec_float -> spec_float := SFmul prec32 emax32.
Definition add : spec_float -> spec_float -> spec_float := SFadd prec32 emax32.
Definition div : spec_float -> spec_float -> spec_float := SFdiv prec32 emax32.
Definition one : spec_float := of_int 1.

End Single.

(** ** pi_chudnovsky.c *)

Module Chudnovsky.
Import CInt Libc.

(** [pi_flt], "the type to use for storing calculations": the operations
    the recursion performs on it.  [double] is the program's choice; the
    integers give the same recursion without rounding. *)
Class PiFlt (F : Type) : Type := {
  flt_of_int : Z -> F;
  flt_add : F -> F -> F;
  flt_sub : F -> F -> F;
  flt_mul : F -> F -> F;
  flt_neg : F -> F
}.

#[export] Instance PiFlt_double : PiFlt float := {
  flt_of_int := Double.of_int;
  flt_add := PrimFloat.add;
  flt_sub := PrimFloat.sub;
  flt_mul := PrimFloat.mul;
  flt_neg := PrimFloat.opp
}.

#[export] Instance PiFlt_exact : PiFlt Z := {
  flt_of_int := fun z => z;
  flt_add := Z.add;
  flt_sub := Z.sub;
  flt_mul := Z.mul;
  flt_neg := Z.opp
}.

(** [result_flts]: the triplet a range evaluates to. *)
Record result_flts (F : Type) : Type := mk_result { Pab : F; Qab : F; Tab : F }.
Arguments mk_result {F} _ _ _.
Arguments Pab {F} _.
Arguments Qab {F} _.
Arguments Tab {F} _.

Section BinarySplit.
Context {F : Type} `{PiFlt F}.

Local Infix "*." := flt_mul (at level 40, left associativity).
Local Infix "+." := flt_add (at level 50, left associativity).
Local Infix "-." := flt_sub (at level 50, left associativity).
Local Notation "# z" := (flt_of_int z) (at level 9, z at level 9).

(** The branch [b - a == 1].  [a * a * a] is a product of [pi_uint]s, taken
    before the multiplication by the floating constant. *)
Definition unit_range (a : Z) : result_flts F :=
  let P := if a =? 0 then #1
           else (#6 *. #a -. #5) *. (#2 *. #a -. #1) *. (#6 *. #a -. #1) in
  let Q := if a =? 0 then #1
           else # (wrap64 (wrap64 (a * a) * a)) *. #10939058860032000 in
  let T := P *. ((#545140134 *. #a) +. #13591409) in
  mk_result P Q (if Z.land a 1 =? 0 then T else flt_neg T).

(** The merge of the triplets of [a, m) and [m, b). *)
Definition combine (am mb : result_flts F) : result_flts F :=
  mk_result (Pab am *. Pab mb)
            (Qab am *. Qab mb)
            (Qab mb *. Tab am +. Pab am *. Tab mb).

(** [chudnovsky_binarysplit]; the recursion has no bound of its own, so the
    model counts nested calls down and gives [None] when they run out. *)
Fixpoint chudnovsky_binarysplit (fuel : nat) (a b : Z) : option (result_flts F) :=
  match fuel with
  | O => None
  | S fuel' =>
      if wrap64 (b - a) =? 1 then Some (unit_range a)
      else
        let m := wrap64 (a + b) / 2 in
        match chudnovsky_binarysplit fuel' a m with
        | None => None
        | Some am =>
            match chudnovsky_binarysplit fuel' m b with
            | None => None
            | Some mb => Some (combine am mb)
            end
        end
  end.

End BinarySplit.

Section Main.
(** [pow] of the mathematics library. *)
Variable pow : float -> float -> float.

Local Open Scope float_scope.

(** The upper end of the range [main] evaluates, from the doubled digit
    count. *)
Definition binarysplit_terms (digits : Z) : option Z :=
  match Double.to_u64 (Double.of_int digits / 14.181647462725477) with
  | Some q => Some (wrap64 (q + 1))
  | None => None
  end.

(** The integer [main] prints. *)
Definition pi_integer (digits : Z) (res : result_flts float) : option Z :=
  Double.to_u64
    ((Qab res * 426880 * sqrt (10005 * pow 10 (Double.of_int digits))) / Tab res).

Definition main (fuel : nat) (argv : list string) : option run :=
  match argv with
  | [] => Some Undefined
  | [_; arg] =>
      if negb (in_long (strtol arg * 2)) then Some Undefined
      else
        let digits := (strtol arg * 2)%Z in
        if (digits <? 0)%Z then
          Some (Returned EXIT_FAILURE "" ("Digits count must be larger than 0." ++ nl))
        else
          match binarysplit_terms digits with
          | None => Some Undefined
          | Some b =>
              match chudnovsky_binarysplit fuel 0 b with
              | None => None
              | Some res =>
                  match pi_integer digits res with
                  | None => Some Undefined
                  | Some pi =>
                      Some (Returned EXIT_SUCCESS
                              ("Pi approximation: "
                                 ++ string_of_list_ascii (printf_ld pi) ++ nl) "")
                  end
              end
          end
  | prog :: _ =>
      Some (Returned EXIT_FAILURE "" ("Usage: " ++ prog ++ " pi_digits" ++ nl))
  end.

End Main.

End Chudnovsky.

(** ** pi_infseries.c *)

Module InfSeries.
Import CInt Libc.

(** How a call of a function with a loop ends: with a value, in undefined
    behaviour, or (in the model only) because the fuel ran out first. *)
Inductive outcome (A : Type) : Type :=
| Value (a : A)
| UndefinedBehaviour
| OutOfFuel.
Arguments Value {A} _.
Arguments UndefinedBehaviour {A}.
Arguments OutOfFuel {A}.

(** [LOOP_TERMS(expr)], that is [do expr while (--terms)], on the variables
    [s] of the enclosing function.  [runs] counts the executions of [expr]:
    the C code keeps no such counter. *)
Fixpoint LOOP_TERMS {St : Type} (fuel : nat) (expr : St -> St) (terms : Z)
  (s : St) (runs : Z) : outcome (St * Z) :=
  match fuel with
  | O => OutOfFuel
  | S fuel' =>
      let s' := expr s in
      if negb (in_long (terms - 1)) then UndefinedBehaviour
      else if terms - 1 =? 0 then Value (s', runs + 1)
      else LOOP_TERMS fuel' expr (terms - 1) s' (runs + 1)
  end.

(** What a series function returns, with the number of times its loop body
    ran. *)
Record series_run : Type := mk_run { result : float; iterations : Z }.

Definition finish {St : Type} (ret : St -> float) (o : outcome (St * Z))
  : outcome series_run :=
  match o with
  | Value (s, n) => Value (mk_run (ret s) n)
  | UndefinedBehaviour => UndefinedBehaviour
  | OutOfFuel => OutOfFuel
  end.

Local Open Scope float_scope.

(** [res], [top], [bottom]. *)
Definition wallis_body (s : float * float * float) : float * float * float :=
  let '(res, top, bottom) := s in
  let top := top + 2 in
  let res := res * (top / bottom) in
  let bottom := bottom + 2 in
  let res := res * (top / bottom) in
  (res, top, bottom).

Definition wallis_product (fuel : nat) (terms : Z) : outcome series_run :=
  finish (fun '(res, _, _) => res * 2)
         (LOOP_TERMS fuel wallis_body terms (1, 0, 1) 0).

(** [res], [sqr_res]. *)
Definition vietes_body (s : float * float) : float * float :=
  let '(res, sqr_res) := s in
  let sqr_res := sqrt (2 + sqr_res) in
  (res * (2 / sqr_res), sqr_res).

Definition vietes_formula (fuel : nat) (terms : Z) : outcome series_run :=
  finish (fun '(res, _) => res * 2)
         (LOOP_TERMS fuel vietes_body terms (1, 0) 0).

(** [res], [denom_cnt], [sign], [denom]. *)
Definition nilakantha_body (s : float * float * float * float)
  : float * float * float * float :=
  let '(res, denom_cnt, sign, _) := s in
  let denom := denom_cnt * (denom_cnt + 1) in
  let denom_cnt := denom_cnt + 2 in
  let denom := denom * denom_cnt in
  let sign := - sign in
  (res + (4 / denom) * sign, denom_cnt, sign, denom).

Definition nilakantha (fuel : nat) (terms : Z) : outcome series_run :=
  finish (fun '(res, _, _, _) => res)
         (LOOP_TERMS fuel nilakantha_body terms (3, 2, -1, 0) 0).

(** [res], [sign], [denom]. *)
Definition madhava_leibniz_body (s : float * float * float) : float * float * float :=
  let '(res, sign, denom) := s in
  let denom := denom + 2 in
  let sign := - sign in
  (res + (1 / denom) * sign, sign, denom).

Definition madhava_leibniz_formula (fuel : nat) (terms : Z) : outcome series_run :=
  finish (fun '(res, _, _) => res * 4)
         (LOOP_TERMS fuel madhava_leibniz_body terms (1, 1, 1) 0).

(** [res], [fract_num], [fract_den], [fract_tot], [den_mult]. *)
Definition newton_arctan_body (s : float * float * float * float * float)
  : float * float * float * float * float :=
  let '(res, fract_num, fract_den, fract_tot, den_mult) := s in
  let den_mult := den_mult * 2 in
  let fract_num := fract_num + 2 in
  let fract_den := fract_den + 2 in
  let fract_tot := fract_tot * (fract_num / fract_den) in
  (res + (1 / den_mult) * fract_tot, fract_num, fract_den, fract_tot, den_mult).

Definition newton_arctan_pi (fuel : nat) (terms : Z) : outcome series_run :=
  finish (fun '(res, _, _, _, _) => res * 4)
         (LOOP_TERMS fuel newton_arctan_body terms (0.5, 0, 1, 1, 2) 0).

Local Close Scope float_scope.

(** [series_function_data]: the functions with their display names. *)
Record series_func_data : Type := mk_series {
  address : nat -> Z -> outcome series_run;
  given_name : string
}.

Definition series_function_data : list series_func_data :=
  [ mk_series wallis_product "Wallis product";
    mk_series vietes_formula "Viete's formula";
    mk_series nilakantha "Nilakantha series";
    mk_series madhava_leibniz_formula "Madhava-Leibniz formula (arctan)";
    mk_series newton_arctan_pi "Newton series (arctan)" ].

Definition count_series_functions : Z := Z.of_nat (List.length series_function_data).

(** [print_thousands_sepd_num]: the characters it writes.  In the first
    branch [terms] is positive, where C's [/] and [%] are [Z.div] and
    [Z.modulo]. *)
Equations? print_thousands_sepd_num (terms : Z) : list ascii
  by wf (Z.to_nat (Z.log2 terms)) lt :=
  print_thousands_sepd_num terms with Z_ge_dec terms 1000 := {
    | left _ :=
        print_thousands_sepd_num (terms / 1000)
          ++ ","%char :: printf_03ld (terms mod 1000)
    | right _ := printf_ld terms }.
Proof.
  pose proof (log2_div_lt terms 1000 ltac:(lia) ltac:(lia)).
  pose proof (Z.log2_nonneg (terms / 1000)). lia.
Qed.

(** A [long] passed for an [int] parameter keeps its low 32 bits. *)
Definition to_int (z : Z) : Z := (z + 2 ^ 31) mod 2 ^ 32 - 2 ^ 31.

(** [thread_series_data]. *)
Record thread_series_data : Type := mk_task { series_index : Z; terms_count : Z }.

(** What the main thread does, in order.  [SeriesResult] stands for the
    line "<name> result: <value> (<seconds>s)", the time left out.  The
    lines the workers of the "all" mode write come in no fixed order and are
    not part of the main thread's trace. *)
Inductive event : Type :=
| Out (text : string)
| Err (text : string)
| SeriesResult (name : string) (res : float)
| CreateThread (handle : nat) (task : thread_series_data)
| JoinThread (handle : nat).

(** The call [current_series.address(given_terms_count)] of [do_series]:
    the entry of the table at [index] applied to [terms], under its display
    name.  An index outside the table is undefined behaviour. *)
Definition series_call (fuel : nat) (index terms : Z)
  : outcome (string * series_run) :=
  if (index <? 0) || (count_series_functions <=? index) then UndefinedBehaviour
  else
    let current_series :=
      nth (Z.to_nat index) series_function_data (mk_series wallis_product "") in
    match address current_series fuel terms with
    | Value r => Value (given_name current_series, r)
    | UndefinedBehaviour => UndefinedBehaviour
    | OutOfFuel => OutOfFuel
    end.

(** [do_series(series_index, given_terms_count)]: both parameters are
    [int]s; the line is written once the series has returned. *)
Definition do_series (fuel : nat) (series_index given_terms_count : Z)
  : outcome (list event) :=
  match series_call fuel series_index given_terms_count with
  | Value (name, r) => Value [SeriesResult name (result r)]
  | UndefinedBehaviour => UndefinedBehaviour
  | OutOfFuel => OutOfFuel
  end.

(** [do_series_thread]: what a worker does with the task it is handed.
    The task's count is a [long]; it meets the [int] parameter here. *)
Definition do_series_thread (fuel : nat) (data : thread_series_data)
  : outcome (list event) :=
  do_series fuel (series_index data) (to_int (terms_count data)).

(** The fan-out loop from index [i]; [malloc_ok i] tells whether the
    allocation for series [i] succeeds. *)
Fixpoint create_threads (malloc_ok : nat -> bool) (names : list series_func_data)
  (i : nat) (given_terms_count : Z) : list event :=
  match names with
  | [] => []
  | d :: rest =>
      (if malloc_ok i
       then CreateThread i (mk_task (Z.of_nat i) given_terms_count)
       else Err ("Could not allocate memory for series "
                   ++ String (ascii_of_nat 34) (given_name d)
                   ++ String (ascii_of_nat 34) ". Skipping."))
        :: create_threads malloc_ok rest (S i) given_terms_count
  end.

(** The join loop over [handles], in their order: the joins that return,
    and whether the loop came to its end.  A join returns when its worker
    has returned.  A handle whose allocation failed was never written, and
    a worker may run into undefined behaviour: the loop stops there. *)
Fixpoint join_threads (malloc_ok : nat -> bool) (fuel : nat) (given_terms_count : Z)
  (handles : list nat) : option (list event * bool) :=
  match handles with
  | [] => Some ([], true)
  | i :: rest =>
      if malloc_ok i then
        match do_series_thread fuel (mk_task (Z.of_nat i) given_terms_count) with
        | Value _ =>
            match join_threads malloc_ok fuel given_terms_count rest with
            | Some (joins, finished) => Some (JoinThread i :: joins, finished)
            | None => None
            end
        | UndefinedBehaviour => Some ([], false)
        | OutOfFuel => None
        end
      else Some ([], false)
  end.

(** How a run ends: with an exit status, or in undefined behaviour after
    the events recorded. *)
Inductive series_exit : Type :=
| Exited (status : Z) (trace : list event)
| UndefinedAfter (trace : list event).

Definition usage_lines : list event :=
  map (fun '(i, d) =>
         Out ("  " ++ string_of_list_ascii (printf_ld (Z.of_nat i + 1))
                ++ " - " ++ given_name d ++ nl))
      (combine (seq 0 (List.length series_function_data)) series_function_data).

Definition first_char (s : string) : ascii :=
  match s with
  | String c _ => c
  | EmptyString => Ascii.zero
  end.

(** The ways [main] ends, by name. *)
Definition invalid_option : series_exit :=
  Exited EXIT_FAILURE [Err ("Invalid series option." ++ nl)].

Definition invalid_terms : series_exit :=
  Exited EXIT_FAILURE [Err ("Terms value must be larger than 0." ++ nl)].

Definition chosen_header (given_terms_count : Z) (name : string) : list event :=
  [ Out "Terms: ";
    Out (string_of_list_ascii (print_thousands_sepd_num given_terms_count));
    Out (nl ++ "Chosen series: " ++ name ++ nl) ].

(** The five tasks of the "all" mode and the joins that follow. *)
Definition all_series_events (given_terms_count : Z) : list event :=
  map (fun i => CreateThread i (mk_task (Z.of_nat i) given_terms_count)) (seq 0 5)
    ++ map JoinThread (seq 0 5).

(** [main]; [None] when the fuel ran out before a series returned. *)
Definition main (malloc_ok : nat -> bool) (fuel : nat) (argv : list string)
  : option series_exit :=
  match argv with
  | [] => Some (UndefinedAfter [])
  | [_; choice; terms_arg] =>
      let is_all_series := Ascii.eqb (first_char choice) "a"%char in
      let given_series_value := if is_all_series then -1 else strtol choice in
      if negb is_all_series
         && ((given_series_value <? 1) || (given_series_value >? count_series_functions))
      then Some invalid_option
      else
        let given_terms_count := strtol terms_arg in
        if given_terms_count <=? 0
        then Some invalid_terms
        else
          let header :=
            chosen_header given_terms_count
              (if is_all_series then "All"
               else given_name
                      (nth (Z.to_nat (given_series_value - 1))
                           series_function_data
                           (mk_series wallis_product ""))) in
          if negb is_all_series
          then
            match do_series fuel (given_series_value - 1) (to_int given_terms_count) with
            | Value lines => Some (Exited EXIT_SUCCESS (header ++ lines))
            | UndefinedBehaviour => Some (UndefinedAfter header)
            | OutOfFuel => None
            end
          else
            let n := List.length series_function_data in
            let created := create_threads malloc_ok series_function_data 0 given_terms_count in
            match join_threads malloc_ok fuel given_terms_count (seq 0 n) with
            | Some (joins, true) => Some (Exited EXIT_SUCCESS (header ++ created ++ joins))
            | Some (joins, false) => Some (UndefinedAfter (header ++ created ++ joins))
            | None => None
            end
  | prog :: _ =>
      Some (Exited EXIT_FAILURE
              (Err ("Usage: " ++ prog ++ " series_choice series_terms" ++ nl
                      ++ "Choices:" ++ nl ++ "all - All below series" ++ nl)
                 :: usage_lines))
  end.

End InfSeries.

(** ** pi_mcarlo.c *)

Module MCarlo.
Import CInt Libc.

(** *** Conditional inclusion

    [main] guards its thread code with [#if num_threads > 1].  That is a
    directive: the preprocessor evaluates it, and in its arithmetic an
    identifier that is not a macro stands for 0. *)
Inductive pp_expr : Type :=
| PPnum (n : Z)
| PPident (name : string)
| PPgt (l r : pp_expr).

Fixpoint pp_lookup (macros : list (string * Z)) (name : string) : option Z :=
  match macros with
  | [] => None
  | (m, v) :: rest => if String.eqb m name then Some v else pp_lookup rest name
  end.

Fixpoint pp_eval (macros : list (string * Z)) (e : pp_expr) : Z :=
  match e with
  | PPnum n => n
  | PPident name =>
      match pp_lookup macros name with
      | Some v => v
      | None => 0
      end
  | PPgt l r => if pp_eval macros l >? pp_eval macros r then 1 else 0
  end.

Section Program.
(** [RAND_MAX] of the C library. *)
Variable RAND_MAX : Z.
(** The bytes of stack [main] can still claim for its arrays. *)
Variable stack_bytes : Z.

(** The integer macros in scope at [main]; [num_threads] is a local
    variable of [main] and not one of them. *)
Definition integer_macros : list (string * Z) :=
  [ ("EXIT_SUCCESS"%string, EXIT_SUCCESS);
    ("EXIT_FAILURE"%string, EXIT_FAILURE);
    ("RAND_MAX"%string, RAND_MAX) ].

(** The value of the directive [#if num_threads > 1], at both places. *)
Definition if_num_threads_gt_1 : bool :=
  negb (pp_eval integer_macros (PPgt (PPident "num_threads") (PPnum 1)) =? 0).

(** *** The sampler *)

(** [fastrand01(&seed)]: the value returned and the seed left behind. *)
Definition fastrand01 (seed : Z) : spec_float * Z :=
  let seed' := wrap32 (3812762923 * seed) in
  (Single.div (Single.of_int (Z.land seed' RAND_MAX)) (Single.of_int RAND_MAX), seed').

(** The variables of a running sampler: its seed and the two counters it
    was handed, [counter_arrays[0]] (outside) and [counter_arrays[1]]
    (inside). *)
Record sampler : Type := mk_sampler { seed : Z; outside : Z; inside : Z }.

(** [(randX * randX) + (randY * randY) < 1.0]. *)
Definition in_quadrant (randX randY : spec_float) : bool :=
  SFltb (Single.add (Single.mul randX randX) (Single.mul randY randY)) Single.one.

(** The point a pass of the loop draws from the seed it finds. *)
Definition drawn_point (st : sampler) : spec_float * spec_float :=
  let '(randX, s1) := fastrand01 (seed st) in
  let '(randY, _) := fastrand01 s1 in
  (randX, randY).

(** One pass through the body of the [for] loop. *)
Definition sample_point (st : sampler) : sampler :=
  let '(randX, s1) := fastrand01 (seed st) in
  let '(randY, s2) := fastrand01 s1 in
  if in_quadrant randX randY
  then mk_sampler s2 (outside st) (wrap64 (inside st + 1))
  else mk_sampler s2 (wrap64 (outside st + 1)) (inside st).

(** [for (counter_t i = 0; i < num_iterations; ++i) body]. *)
Fixpoint for_counter {St : Type} (fuel : nat) (i num_iterations : Z)
  (body : St -> St) (s : St) : option St :=
  match fuel with
  | O => None
  | S fuel' =>
      if i <? num_iterations
      then for_counter fuel' (wrap64 (i + 1)) num_iterations body (body s)
      else Some s
  end.

(** What [rand()] and [time(NULL)] give one call of the sampler. *)
Record entropy : Type := mk_entropy { rand_value : Z; time_value : Z }.

(** [(rand() + 214584u) * time(NULL)] stored in an [unsigned]. *)
Definition initial_seed (e : entropy) : Z :=
  wrap32 (wrap32 (rand_value e + 214584) * time_value e).

(** [approximate_pi_mcarlo(results_array)] with the global
    [num_iterations]: the two counters afterwards. *)
Definition approximate_pi_mcarlo (fuel : nat) (num_iterations : Z) (e : entropy)
  (counter_arrays : Z * Z) : option (Z * Z) :=
  match for_counter fuel 0 num_iterations sample_point
          (mk_sampler (initial_seed e) (fst counter_arrays) (snd counter_arrays)) with
  | Some st => Some (outside st, inside st)
  | None => None
  end.

(** [n] successive calls of [fastrand01] on a sampler's seed: the seed and
    the value after each. *)
Fixpoint update_run (n : nat) (st : sampler) : list (Z * spec_float) :=
  match n with
  | O => []
  | S n' =>
      let '(v, s') := fastrand01 (seed st) in
      (s', v) :: update_run n' (mk_sampler s' (outside st) (inside st))
  end.

(** The seed and the value after the k-th update from [seed0], in closed
    form. *)
Definition kth_update (seed0 : Z) (k : nat) : Z * spec_float :=
  let s := wrap32 (3812762923 ^ Z.of_nat k * seed0) in
  (s, Single.div (Single.of_int (Z.land s RAND_MAX)) (Single.of_int RAND_MAX)).

(** The inverse of the multiplier 3812762923 modulo 2^32. *)
Definition fastrand_inverse : Z := 918385027.

(** *** The orchestrator *)

Inductive event : Type :=
| CreateThread (handle : nat) (slot : nat)
| OwnSampler (slot : nat)
| JoinThread (handle : nat).

(** What a completed run reports, with what it did on the way. *)
Record report : Type := mk_report {
  trace : list event;
  thread_results : list (Z * Z);
  points_inside : Z;
  points_outside : Z
}.

Inductive mcarlo_exit : Type :=
| Usage (status : Z) (prog : string)
| Completed (status : Z) (r : report)
| UndefinedRun.

Definition set_slot (i : nat) (v : Z * Z) (table : list (Z * Z)) : list (Z * Z) :=
  firstn i table ++ v :: skipn (S i) table.

(** The creation loop: worker [i] samples into slot [i].  The slots are
    disjoint, so what each holds once its thread is joined does not depend
    on the interleaving. *)
Fixpoint run_workers (fuel : nat) (num_iterations : Z) (e : nat -> entropy)
  (slots : list nat) (table : list (Z * Z)) : option (list (Z * Z)) :=
  match slots with
  | [] => Some table
  | i :: rest =>
      match approximate_pi_mcarlo fuel num_iterations (e i) (nth i table (0, 0)) with
      | None => None
      | Some c => run_workers fuel num_iterations e rest (set_slot i c table)
      end
  end.

(** The reduction loop: the other slots added into the local one. *)
Definition combine_results (local : Z * Z) (others : list (Z * Z)) : Z * Z :=
  fold_left (fun acc c => (wrap64 (fst acc + fst c), wrap64 (snd acc + snd c)))
            others local.

(** The bytes [main]'s variable-length arrays take on the stack:
    [counter_t thread_results[num_threads][2]], of 8-byte counters, and
    [thread_id_t threads[num_threads - 1]], of 8-byte handles, where the
    directive keeps it.  A size that is no [size_t] value, or more than the
    stack still has, is undefined behaviour. *)
Definition arrays_bytes (num_threads : Z) : Z :=
  16 * num_threads + (if if_num_threads_gt_1 then 8 * (num_threads - 1) else 0).

Definition main (e : nat -> entropy) (fuel : nat) (argv : list string)
  : option mcarlo_exit :=
  match argv with
  | [] => Some UndefinedRun
  | [_; points_arg; threads_arg] =>
      let num_iterations := strtoul points_arg in
      let num_threads := strtol threads_arg in
      if num_threads <=? 0 then Some UndefinedRun
      else if (U64_MOD <=? arrays_bytes num_threads) || (stack_bytes <? arrays_bytes num_threads)
      then Some UndefinedRun
      else
        let last := Z.to_nat (num_threads - 1) in
        let workers := if if_num_threads_gt_1 then seq 0 last else [] in
        let table0 := repeat (0, 0) (Z.to_nat num_threads) in
        match run_workers fuel num_iterations e workers table0 with
        | None => None
        | Some table1 =>
            match approximate_pi_mcarlo fuel num_iterations (e last)
                    (nth last table1 (0, 0)) with
            | None => None
            | Some local =>
                let local_results :=
                  if if_num_threads_gt_1
                  then combine_results local (firstn last table1)
                  else local in
                Some (Completed 0
                        (mk_report
                           (map (fun i => CreateThread i i) workers
                              ++ [OwnSampler last]
                              ++ map JoinThread workers)
                           (set_slot last local_results table1)
                           (snd local_results)
                           (fst local_results)))
            end
        end
  | prog :: _ => Some (Usage EXIT_FAILURE prog)
  end.

End Program.

End MCarlo.

(** ** Definitions that follow the specification's words

    They are what the code is compared with, and nothing of the model above
    uses them. *)

Module SpecWords.
Import Libc Chudnovsky.

(** "Every decomposition of it into adjacent sub-ranges, combining the
    sub-range triplets pairwise left-to-right". *)
Section Decompositions.
Context {F : Type} `{PiFlt F}.

(** The unit ranges [a, a+1), ..., [a+k, a+k+1) merged from the left, one
    at a time. *)
Fixpoint units_from_left (a : Z) (k : nat) : result_flts F :=
  match k with
  | O => unit_range a
  | S k' => combine (units_from_left a k') (unit_range (a + Z.of_nat (S k')))
  end.

(** Adjacent sub-ranges [c0, c1), [c1, c2), ... given by their cut points,
    each evaluated on its own and merged pairwise from the left. *)
Fixpoint merge_from_left (fuel : nat) (acc : result_flts F) (lo : Z) (cuts : list Z)
  : option (result_flts F) :=
  match cuts with
  | [] => Some acc
  | hi :: rest =>
      match chudnovsky_binarysplit fuel lo hi with
      | None => None
      | Some r => merge_from_left fuel (combine acc r) hi rest
      end
  end.

Definition split_ranges (fuel : nat) (lo : Z) (cuts : list Z) : option (result_flts F) :=
  match cuts with
  | [] => None
  | hi :: rest =>
      match chudnovsky_binarysplit fuel lo hi with
      | None => None
      | Some r => merge_from_left fuel r hi rest
      end
  end.

End Decompositions.

(** The cut points are increasing, start above [lo] and end at [n]. *)
Fixpoint decomposes (lo n : Z) (cuts : list Z) : Prop :=
  match cuts with
  | [] => lo = n
  | hi :: rest => lo < hi /\ decomposes hi n rest
  end.

(** Runs of three from the head of a list; only the last may be shorter. *)
Fixpoint chunks3 (l : list ascii) : list (list ascii) :=
  match l with
  | a :: b :: c :: ((_ :: _) as rest) => [a; b; c] :: chunks3 rest
  | _ => [l]
  end.

(** "The decimal digits grouped in threes from the right". *)
Definition groups_from_right (ds : list ascii) : list (list ascii) :=
  rev (map (@rev ascii) (chunks3 (rev ds))).

(** "With groups separated by commas". *)
Fixpoint join_commas (gs : list (list ascii)) : list ascii :=
  match gs with
  | [] => []
  | [g] => g
  | g :: rest => g ++ ","%char :: join_commas rest
  end.

Definition spec_thousands (n : Z) : list ascii :=
  join_commas (groups_from_right (dec_digits n)).

(** A text with its commas taken out, and the number of commas in it. *)
Definition is_comma (c : ascii) : bool := Ascii.eqb c ","%char.

Definition without_commas (l : list ascii) : list ascii :=
  filter (fun c => negb (is_comma c)) l.

Definition count_commas (l : list ascii) : nat :=
  List.length (filter is_comma l).

(** "The number of terms needed is D/14.181647462725477 + 1 (rounded up)",
    in exact arithmetic, read both as the quotient cut to a whole number and
    increased by one, and as the sum rounded to the next whole number. *)
Definition digits_per_term_e15 : Z := 14181647462725477.

Definition spec_terms_cut (D : Z) : Z := D * 10 ^ 15 / digits_per_term_e15 + 1.

Definition spec_terms_ceiling (D : Z) : Z :=
  - ((- (D * 10 ^ 15 + digits_per_term_e15)) / digits_per_term_e15).

End SpecWords.

(** ** Comparing triplets held in [double]

    A finite double is a whole number times a power of two, so the distance
    between two of them is measured exactly, in integers.  The rest of the
    module tabulates, for every n up to a bound, the triplets that merging
    adjacent sub-ranges of [0, n) from the left can produce. *)

Module Rounding.
Import Chudnovsky.

(** The value of a finite double as (m, e), meaning m * 2^e. *)
Definition exact_value (f : float) : option (Z * Z) :=
  match Prim2SF f with
  | S754_zero _ => Some (0, 0)
  | S754_finite s m e => Some (if s then Z.neg m else Z.pos m, e)
  | _ => None
  end.

(** Both finite, and |x - y| <= 2^-k * |x|. *)
Definition agree_to (k : Z) (x y : float) : bool :=
  match exact_value x, exact_value y with
  | Some (m1, e1), Some (m2, e2) =>
      let e := Z.min e1 e2 in
      let a := m1 * 2 ^ (e1 - e) in
      let b := m2 * 2 ^ (e2 - e) in
      Z.abs (a - b) * 2 ^ k <=? Z.abs a
  | _, _ => false
  end.

Definition triplets_agree (k : Z) (r1 r2 : result_flts float) : bool :=
  agree_to k (Pab r1) (Pab r2) && agree_to k (Qab r1) (Qab r2)
  && agree_to k (Tab r1) (Tab r2).

(** The same double, bit for bit. *)
Definition sf_eqb (x y : spec_float) : bool :=
  match x, y with
  | S754_zero a, S754_zero b => Bool.eqb a b
  | S754_infinity a, S754_infinity b => Bool.eqb a b
  | S754_nan, S754_nan => true
  | S754_finite a m e, S754_finite b m' e' =>
      Bool.eqb a b && Pos.eqb m m' && Z.eqb e e'
  | _, _ => false
  end.

Definition same_float (x y : float) : bool :=
  if PrimFloat.eqb x y then sf_eqb (Prim2SF x) (Prim2SF y) else false.

Definition same_triplet (r1 r2 : result_flts float) : bool :=
  if same_float (Tab r1) (Tab r2)
  then if same_float (Qab r1) (Qab r2) then same_float (Pab r1) (Pab r2) else false
  else false.

Definition member (r : result_flts float) (l : list (result_flts float)) : bool :=
  existsb (same_triplet r) l.

Fixpoint add_new (r : result_flts float) (l : list (result_flts float))
  : list (result_flts float) :=
  match l with
  | [] => [r]
  | x :: l' => if same_triplet r x then l else x :: add_new r l'
  end.

(** [chudnovsky_binarysplit] on [lo, hi). *)
Definition range (fuel lo hi : nat) : option (result_flts float) :=
  chudnovsky_binarysplit fuel (Z.of_nat lo) (Z.of_nat hi).

(** The triplets for [0, hi): the range evaluated whole, and every triplet
    for a shorter [0, lo) merged with the range [lo, hi). *)
Definition extend (fuel hi : nat) (sets : list (list (result_flts float)))
  : list (result_flts float) :=
  fold_right add_new []
    ((match range fuel 0 hi with Some r => [r] | None => [] end)
     ++ flat_map (fun lo => match range fuel lo hi with
                            | Some r => map (fun acc => combine acc r) (nth lo sets [])
                            | None => []
                            end) (seq 1 (hi - 1))).

Fixpoint grow (fuel steps : nat) (sets : list (list (result_flts float)))
  : list (list (result_flts float)) :=
  match steps with
  | O => sets
  | S s => grow fuel s (sets ++ [extend fuel (List.length sets) sets])
  end.

(** Entry n of the table holds the triplets for [0, n), n = 1 .. N. *)
Definition all_sets (fuel N : nat) : list (list (result_flts float)) :=
  grow fuel N [[]].

(** A table is closed when entry hi holds the whole range [0, hi) and, for
    every lo below hi, every triplet of entry lo merged with [lo, hi). *)
Definition closed (fuel N : nat) (sets : list (list (result_flts float))) : bool :=
  forallb (fun hi =>
    match range fuel 0 hi with
    | Some r => member r (nth hi sets [])
    | None => false
    end
    && forallb (fun lo =>
         match range fuel lo hi with
         | Some r => forallb (fun acc => member (combine acc r) (nth hi sets []))
                             (nth lo sets [])
         | None => false
         end) (seq 1 (hi - 1)))
    (seq 1 N).

(** Every triplet of entry n agrees with the whole range [0, n). *)
Definition within (k : Z) (fuel N : nat) (sets : list (list (result_flts float)))
  : bool :=
  forallb (fun n =>
    match range fuel 0 n with
    | Some ref => forallb (triplets_agree k ref) (nth n sets [])
    | None => false
    end) (seq 1 N).

End Rounding.

(** * Properties *)

(** ** Wrap-around *)

Module CIntFacts.
Import CInt.

Lemma wrap64_small x : 0 <= x < U64_MOD -> wrap64 x = x.
Proof. intros Hx. unfold wrap64. apply Z.mod_small. exact Hx. Qed.

End CIntFacts.

(** ** The formatter of pi_infseries.c *)

Module FormatProofs.
Import Libc InfSeries SpecWords.

Lemma dec_digits_unfold n :
  dec_digits n =
  if n <? 10 then [digit_char n] else dec_digits (n / 10) ++ [digit_char (n mod 10)].
Proof.
  rewrite dec_digits_equation_1.
  destruct (Z_lt_dec n 10) as [Hlt | Hge]; simpl.
  - assert (E : (n <? 10) = true) by (apply Z.ltb_lt; lia).
    rewrite E. reflexivity.
  - assert (E : (n <? 10) = false) by (apply Z.ltb_ge; lia).
    rewrite E. reflexivity.
Qed.

Lemma print_thousands_unfold n :
  print_thousands_sepd_num n =
  if 1000 <=? n
  then print_thousands_sepd_num (n / 1000) ++ ","%char :: printf_03ld (n mod 1000)
  else printf_ld n.
Proof.
  rewrite print_thousands_sepd_num_equation_1.
  destruct (Z_ge_dec n 1000) as [Hge | Hlt]; simpl.
  - assert (E : (1000 <=? n) = true) by (apply Z.leb_le; lia).
    rewrite E. reflexivity.
  - assert (E : (1000 <=? n) = false) by (apply Z.leb_gt; lia).
    rewrite E. reflexivity.
Qed.

(** The last three digits of a number of four digits or more. *)
Lemma dec_digits_last_three n :
  1000 <= n ->
  dec_digits n =
  dec_digits (n / 1000)
    ++ [digit_char (n / 100 mod 10); digit_char (n / 10 mod 10); digit_char (n mod 10)].
Proof.
  intros Hn.
  rewrite (dec_digits_unfold n).
  assert (E1 : (n <? 10) = false) by (apply Z.ltb_ge; lia). rewrite E1.
  rewrite (dec_digits_unfold (n / 10)).
  assert (H10 : 100 <= n / 10) by (apply Z.div_le_lower_bound; lia).
  assert (E2 : (n / 10 <? 10) = false) by (apply Z.ltb_ge; lia). rewrite E2.
  rewrite Z.div_div by lia. change (10 * 10) with 100.
  rewrite (dec_digits_unfold (n / 100)).
  assert (H100 : 10 <= n / 100) by (apply Z.div_le_lower_bound; lia).
  assert (E3 : (n / 100 <? 10) = false) by (apply Z.ltb_ge; lia). rewrite E3.
  rewrite Z.div_div by lia. change (100 * 10) with 1000.
  rewrite <- !app_assoc. reflexivity.
Qed.

(** [%03ld] of a number below 1000 is its three digits. *)
Lemma printf_03ld_three v :
  0 <= v < 1000 ->
  printf_03ld v = [digit_char (v / 100); digit_char (v / 10 mod 10); digit_char (v mod 10)].
Proof.
  intros Hv. unfold printf_03ld.
  assert (E : (v <? 0) = false) by (apply Z.ltb_ge; lia). rewrite E.
  rewrite Z.abs_eq by lia. simpl app.
  rewrite (dec_digits_unfold v).
  destruct (v <? 10) eqn:E1.
  - apply Z.ltb_lt in E1.
    replace (v / 100) with 0 by (symmetry; apply Z.div_small; lia).
    replace (v / 10) with 0 by (symmetry; apply Z.div_small; lia).
    rewrite (Z.mod_small v 10) by lia. reflexivity.
  - apply Z.ltb_ge in E1.
    rewrite (dec_digits_unfold (v / 10)).
    assert (Hq : 0 < v / 10 < 100)
      by (split; [apply Z.div_str_pos; lia | apply Z.div_lt_upper_bound; lia]).
    destruct (v / 10 <? 10) eqn:E2.
    + apply Z.ltb_lt in E2.
      assert (Hz : v / 100 = 0) by (Z.div_mod_to_equations; lia).
      rewrite Hz.
      rewrite (Z.mod_small (v / 10) 10) by lia. reflexivity.
    + apply Z.ltb_ge in E2.
      rewrite Z.div_div by lia. change (10 * 10) with 100.
      rewrite (dec_digits_unfold (v / 100)).
      assert (Hh : 0 <= v / 100 < 10)
        by (split; [apply Z.div_pos; lia | apply Z.div_lt_upper_bound; lia]).
      assert (E3 : (v / 100 <? 10) = true) by (apply Z.ltb_lt; lia). rewrite E3.
      reflexivity.
Qed.

Lemma mod_1000_digits n :
  0 <= n ->
  (n mod 1000) / 100 = n / 100 mod 10 /\
  (n mod 1000) / 10 mod 10 = n / 10 mod 10 /\
  (n mod 1000) mod 10 = n mod 10.
Proof. intros Hn. repeat split; Z.div_mod_to_equations; lia. Qed.

Lemma dec_digits_below_1000 v :
  0 <= v < 1000 ->
  dec_digits v = [digit_char v]
  \/ dec_digits v = [digit_char (v / 10); digit_char (v mod 10)]
  \/ dec_digits v = [digit_char (v / 100); digit_char (v / 10 mod 10); digit_char (v mod 10)].
Proof.
  intros Hv.
  rewrite (dec_digits_unfold v).
  destruct (v <? 10) eqn:E1; [left; reflexivity|].
  apply Z.ltb_ge in E1. right.
  rewrite (dec_digits_unfold (v / 10)).
  destruct (v / 10 <? 10) eqn:E2; [left; reflexivity|].
  apply Z.ltb_ge in E2. right.
  rewrite Z.div_div by lia. change (10 * 10) with 100.
  rewrite (dec_digits_unfold (v / 100)).
  assert (E3 : (v / 100 <? 10) = true)
    by (apply Z.ltb_lt; apply Z.div_lt_upper_bound; lia).
  rewrite E3. reflexivity.
Qed.

Lemma dec_digits_nonempty n : dec_digits n <> [].
Proof.
  rewrite dec_digits_unfold. destruct (n <? 10); [discriminate|].
  intros E. apply app_eq_nil in E. destruct E as [_ E]. discriminate.
Qed.

Lemma chunks3_nonempty l : chunks3 l <> [].
Proof. destruct l as [|a [|b [|c [|d r]]]]; simpl; discriminate. Qed.

Lemma groups_from_right_nonempty ds : groups_from_right ds <> [].
Proof.
  unfold groups_from_right. intros E.
  apply (f_equal (@rev (list ascii))) in E. rewrite rev_involutive in E. simpl in E.
  apply map_eq_nil in E. exact (chunks3_nonempty _ E).
Qed.

Lemma join_commas_snoc G g :
  G <> [] -> join_commas (G ++ [g]) = join_commas G ++ ","%char :: g.
Proof.
  induction G as [|a G IH]; intros HG; [contradiction|].
  destruct G as [|b G'].
  - reflexivity.
  - change (join_commas ((a :: b :: G') ++ [g]))
      with (a ++ ","%char :: join_commas ((b :: G') ++ [g])).
    rewrite IH by discriminate.
    change (join_commas (a :: b :: G')) with (a ++ ","%char :: join_commas (b :: G')).
    rewrite <- app_assoc. reflexivity.
Qed.

(** Three more digits on the right open a group of their own. *)
Lemma groups_from_right_snoc3 A x y z :
  A <> [] ->
  groups_from_right (A ++ [x; y; z]) = groups_from_right A ++ [[x; y; z]].
Proof.
  intros HA. unfold groups_from_right.
  rewrite rev_app_distr. simpl rev at 1.
  destruct (rev A) as [|r R] eqn:ER.
  - exfalso. apply HA. rewrite <- (rev_involutive A), ER. reflexivity.
  - change (chunks3 ([z; y; x] ++ r :: R)) with ([z; y; x] :: chunks3 (r :: R)).
    reflexivity.
Qed.

Lemma spec_thousands_step n :
  1000 <= n ->
  spec_thousands n = spec_thousands (n / 1000) ++ ","%char :: printf_03ld (n mod 1000).
Proof.
  intros Hn. unfold spec_thousands.
  rewrite (dec_digits_last_three n Hn).
  rewrite groups_from_right_snoc3 by apply dec_digits_nonempty.
  rewrite join_commas_snoc by apply groups_from_right_nonempty.
  rewrite printf_03ld_three by (apply Z.mod_pos_bound; lia).
  destruct (mod_1000_digits n ltac:(lia)) as (E1 & E2 & E3).
  rewrite E1, E2, E3. reflexivity.
Qed.

Lemma spec_thousands_small n :
  0 <= n < 1000 -> spec_thousands n = printf_ld n.
Proof.
  intros Hn. unfold spec_thousands, printf_ld.
  assert (E : (n <? 0) = false) by (apply Z.ltb_ge; lia). rewrite E.
  destruct (dec_digits_below_1000 n Hn) as [D | [D | D]]; rewrite D; reflexivity.
Qed.

(** C7. The thousands formatter: format(0) is "0", format(999) is "999",
    format(1000) is "1,000", format(1234567) is "1,234,567", and for every
    non-negative number the characters written are its decimal digits
    grouped in threes from the right, the groups separated by commas. *)
Theorem print_thousands_sepd_num_groups :
  string_of_list_ascii (print_thousands_sepd_num 0) = "0"%string
  /\ string_of_list_ascii (print_thousands_sepd_num 999) = "999"%string
  /\ string_of_list_ascii (print_thousands_sepd_num 1000) = "1,000"%string
  /\ string_of_list_ascii (print_thousands_sepd_num 1234567) = "1,234,567"%string
  /\ forall n, 0 <= n -> print_thousands_sepd_num n = spec_thousands n.
Proof.
  do 4 (split; [vm_compute; reflexivity|]).
  intros n Hn. generalize Hn. pattern n.
  apply Z_lt_induction; [clear n Hn | exact Hn].
  intros n IH Hn.
  rewrite print_thousands_unfold.
  destruct (1000 <=? n) eqn:E.
  - apply Z.leb_le in E.
    assert (Hq : 0 <= n / 1000 < n)
      by (split; [apply Z.div_pos; lia | apply Z.div_lt; lia]).
    rewrite spec_thousands_step by exact E.
    rewrite (IH (n / 1000) Hq (proj1 Hq)). reflexivity.
  - apply Z.leb_gt in E.
    symmetry. apply spec_thousands_small. lia.
Qed.

Lemma print_thousands_sepd_num_groups_witness :
  0 <= 9223372036854775807
  /\ print_thousands_sepd_num 9223372036854775807 = spec_thousands 9223372036854775807.
Proof.
  split; [lia|].
  apply (proj2 (proj2 (proj2 (proj2 print_thousands_sepd_num_groups)))). lia.
Defined.

End FormatProofs.

(** ** The series functions and the selector of pi_infseries.c *)

Module SeriesProofs.
Import CInt Libc InfSeries.

(** [do expr while (--terms)] started with a positive counter runs [expr]
    that many times and stops. *)
Lemma LOOP_TERMS_runs {St : Type} (expr : St -> St) :
  forall fuel terms s runs,
    1 <= terms <= LONG_MAX ->
    (Z.to_nat terms <= fuel)%nat ->
    LOOP_TERMS fuel expr terms s runs
    = Value (Nat.iter (Z.to_nat terms) expr s, runs + terms).
Proof.
  induction fuel as [|fuel IH]; intros terms s runs Ht Hf.
  - exfalso. lia.
  - simpl.
    assert (E : in_long (terms - 1) = true).
    { unfold in_long, LONG_MIN, LONG_MAX in *.
      apply andb_true_intro. split; apply Z.leb_le; lia. }
    rewrite E. simpl.
    destruct (terms - 1 =? 0) eqn:E0.
    + apply Z.eqb_eq in E0.
      replace terms with 1 by lia. reflexivity.
    + apply Z.eqb_neq in E0.
      rewrite IH by lia.
      replace (Z.to_nat terms) with (S (Z.to_nat (terms - 1))) by lia.
      rewrite Nat.iter_succ_r.
      f_equal. f_equal. lia.
Qed.

Lemma finish_runs {St : Type} (ret : St -> float) (expr : St -> St) fuel terms s :
  1 <= terms <= LONG_MAX ->
  (Z.to_nat terms <= fuel)%nat ->
  exists r,
    finish ret (LOOP_TERMS fuel expr terms s 0) = Value r /\ iterations r = terms.
Proof.
  intros Ht Hf. rewrite LOOP_TERMS_runs by assumption.
  eexists. split; reflexivity.
Qed.

(** C6. For every iteration count N >= 1 (a [long]), each of the five
    series functions returns, and has run its loop body exactly N times. *)
Theorem series_run_their_body_N_times (N : Z) (fuel : nat) :
  1 <= N ->
  N <= LONG_MAX ->
  (Z.to_nat N <= fuel)%nat ->
  (exists r, wallis_product fuel N = Value r /\ iterations r = N)
  /\ (exists r, vietes_formula fuel N = Value r /\ iterations r = N)
  /\ (exists r, nilakantha fuel N = Value r /\ iterations r = N)
  /\ (exists r, madhava_leibniz_formula fuel N = Value r /\ iterations r = N)
  /\ (exists r, newton_arctan_pi fuel N = Value r /\ iterations r = N).
Proof.
  intros H1 H2 Hf.
  unfold wallis_product, vietes_formula, nilakantha, madhava_leibniz_formula,
    newton_arctan_pi.
  repeat apply conj; apply finish_runs; lia.
Qed.

Lemma series_run_their_body_N_times_witness :
  (exists r, wallis_product 1000 1000 = Value r /\ iterations r = 1000)
  /\ (exists r, vietes_formula 1000 1000 = Value r /\ iterations r = 1000)
  /\ (exists r, nilakantha 1000 1000 = Value r /\ iterations r = 1000)
  /\ (exists r, madhava_leibniz_formula 1000 1000 = Value r /\ iterations r = 1000)
  /\ (exists r, newton_arctan_pi 1000 1000 = Value r /\ iterations r = 1000).
Proof.
  apply (series_run_their_body_N_times 1000 1000).
  - lia.
  - unfold LONG_MAX. lia.
  - vm_compute. reflexivity.
Defined.

Lemma create_all_ok malloc_ok terms :
  (forall i, malloc_ok i = true) ->
  create_threads malloc_ok series_function_data 0 terms
  = map (fun i => CreateThread i (mk_task (Z.of_nat i) terms)) (seq 0 5).
Proof. intros Hm. simpl. rewrite !Hm. reflexivity. Qed.

(** The conversion of a [long] to [int], on the two ranges that matter. *)
Lemma to_int_fits z : - 2 ^ 31 <= z < 2 ^ 31 -> to_int z = z.
Proof. intros Hz. unfold to_int. rewrite Z.mod_small by lia. lia. Qed.

Lemma to_int_wraps z : 2 ^ 31 <= z < 2 ^ 31 + 2 ^ 32 -> to_int z = z - 2 ^ 32.
Proof.
  intros Hz. unfold to_int.
  replace (z + 2 ^ 31) with (z + 2 ^ 31 - 2 ^ 32 + 1 * 2 ^ 32) by ring.
  rewrite Z.mod_add by lia. rewrite Z.mod_small by lia. lia.
Qed.

(** Every entry of the table returns on a positive count, after that many
    passes. *)
Lemma table_entry_runs (d : series_func_data) (N : Z) (fuel : nat) :
  In d series_function_data ->
  1 <= N <= LONG_MAX ->
  (Z.to_nat N <= fuel)%nat ->
  exists r, address d fuel N = Value r /\ iterations r = N.
Proof.
  intros Hin HN Hf.
  unfold series_function_data in Hin. cbn [In] in Hin.
  destruct Hin as [E | [E | [E | [E | [E | []]]]]]; subst d; cbn [address];
    [unfold wallis_product | unfold vietes_formula | unfold nilakantha
    | unfold madhava_leibniz_formula | unfold newton_arctan_pi];
    apply finish_runs; assumption.
Qed.

Lemma table_entry (i : nat) :
  (i < 5)%nat ->
  In (nth i series_function_data (mk_series wallis_product "")) series_function_data.
Proof. intros Hi. apply nth_In. cbn. exact Hi. Qed.

(** [do_series] on an index of the table and a positive count that fits an
    [int]. *)
Lemma do_series_returns (i : nat) (N : Z) (fuel : nat) :
  (i < 5)%nat ->
  1 <= N < 2 ^ 31 ->
  (Z.to_nat N <= fuel)%nat ->
  let d := nth i series_function_data (mk_series wallis_product "") in
  exists r,
    address d fuel N = Value r
    /\ iterations r = N
    /\ do_series fuel (Z.of_nat i) (to_int N) = Value [SeriesResult (given_name d) (result r)].
Proof.
  intros Hi HN Hf d.
  destruct (table_entry_runs d N fuel (table_entry i Hi)) as [r [Hr Hit]];
    [unfold LONG_MAX; lia | exact Hf |].
  exists r. split; [exact Hr|]. split; [exact Hit|].
  unfold do_series, series_call. rewrite to_int_fits by lia.
  change count_series_functions with 5.
  assert (E : (Z.of_nat i <? 0) || (5 <=? Z.of_nat i) = false).
  { apply orb_false_intro; [apply Z.ltb_ge | apply Z.leb_gt]; lia. }
  rewrite E, Nat2Z.id. fold d. rewrite Hr. reflexivity.
Qed.

Lemma worker_returns (i : nat) (N : Z) (fuel : nat) :
  (i < 5)%nat ->
  1 <= N < 2 ^ 31 ->
  (Z.to_nat N <= fuel)%nat ->
  exists lines, do_series_thread fuel (mk_task (Z.of_nat i) N) = Value lines.
Proof.
  intros Hi HN Hf.
  destruct (do_series_returns i N fuel Hi HN Hf) as [r (_ & _ & Hd)].
  eexists. unfold do_series_thread. cbn [series_index terms_count]. exact Hd.
Qed.

(** The join loop over handles that were all written, their workers all
    returning. *)
Lemma join_threads_all malloc_ok fuel N (handles : list nat) :
  (forall i, In i handles -> malloc_ok i = true /\ (i < 5)%nat) ->
  1 <= N < 2 ^ 31 ->
  (Z.to_nat N <= fuel)%nat ->
  join_threads malloc_ok fuel N handles = Some (map JoinThread handles, true).
Proof.
  intros Hall HN Hf. induction handles as [|i rest IH]; [reflexivity|].
  cbn [join_threads map].
  destruct (Hall i (or_introl eq_refl)) as [Hm Hi]. rewrite Hm.
  destruct (worker_returns i N fuel Hi HN Hf) as [lines Hw]. rewrite Hw.
  rewrite IH by (intros k Hk; apply Hall; right; exact Hk).
  reflexivity.
Qed.

(** C10. A first argument whose first character is 'a' is the "all"
    choice whatever follows that character: it is never rejected as an
    invalid index, and with a valid term count (one that is also a positive
    [int], and the five allocations granted) all five series are handed to
    workers, each of which runs its series over that many terms and
    returns, and [main] joins the five and exits with status 0.  Only an
    argument that does not start with 'a' is read as a 1-based index, and
    rejected when it is not one of 1..5. *)
Theorem all_choice_by_first_character
  (malloc_ok : nat -> bool) (fuel : nat) (prog choice terms_arg : string) :
  (first_char choice = "a"%char ->
     main malloc_ok fuel [prog; choice; terms_arg] <> Some invalid_option
     /\ (strtol terms_arg <= 0 ->
         main malloc_ok fuel [prog; choice; terms_arg] = Some invalid_terms)
     /\ (0 < strtol terms_arg < 2 ^ 31 ->
         (forall i, malloc_ok i = true) ->
         (Z.to_nat (strtol terms_arg) <= fuel)%nat ->
         main malloc_ok fuel [prog; choice; terms_arg]
         = Some (Exited EXIT_SUCCESS
                   (chosen_header (strtol terms_arg) "All"
                      ++ all_series_events (strtol terms_arg)))
         /\ forall i, (i < 5)%nat ->
              let d := nth i series_function_data (mk_series wallis_product "") in
              exists r,
                address d fuel (strtol terms_arg) = Value r
                /\ iterations r = strtol terms_arg
                /\ do_series_thread fuel (mk_task (Z.of_nat i) (strtol terms_arg))
                   = Value [SeriesResult (given_name d) (result r)]))
  /\ (first_char choice <> "a"%char ->
        (strtol choice < 1 \/ 5 < strtol choice ->
         main malloc_ok fuel [prog; choice; terms_arg] = Some invalid_option)
        /\ (1 <= strtol choice <= 5 ->
            main malloc_ok fuel [prog; choice; terms_arg] <> Some invalid_option)).
Proof.
  split.
  - intros Ha.
    assert (E : Ascii.eqb (first_char choice) "a"%char = true)
      by (apply Ascii.eqb_eq; exact Ha).
    unfold main. rewrite E. cbn [negb andb].
    destruct (strtol terms_arg <=? 0) eqn:Et.
    + split; [discriminate|]. split; [reflexivity|].
      apply Z.leb_le in Et. intros; lia.
    + apply Z.leb_gt in Et.
      split; [|split; [intros; lia|]].
      * destruct (join_threads malloc_ok fuel (strtol terms_arg)
                    (seq 0 (List.length series_function_data))) as [[joins [|]]|];
          discriminate.
      * intros HN Hm Hf. split.
        -- rewrite join_threads_all; try assumption; try lia.
           ++ rewrite create_all_ok by exact Hm. reflexivity.
           ++ intros i Hi. split; [apply Hm|]. apply in_seq in Hi. cbn in Hi. lia.
        -- intros i Hi.
           pose proof (do_series_returns i (strtol terms_arg) fuel Hi ltac:(lia) Hf) as Hd.
           cbv zeta in Hd. destruct Hd as [r (Hr & Hit & Hd)].
           exists r. split; [exact Hr|]. split; [exact Hit|].
           unfold do_series_thread. cbn [series_index terms_count]. exact Hd.
  - intros Hna.
    assert (E : Ascii.eqb (first_char choice) "a"%char = false)
      by (apply Ascii.eqb_neq; exact Hna).
    unfold main. rewrite E. cbn [negb andb].
    change count_series_functions with 5.
    split.
    + intros Hout.
      assert (Eo : (strtol choice <? 1) || (strtol choice >? 5) = true).
      { apply orb_true_iff. destruct Hout as [H | H];
          [left; apply Z.ltb_lt | right; rewrite Z.gtb_ltb; apply Z.ltb_lt]; lia. }
      rewrite Eo. reflexivity.
    + intros Hin.
      assert (Eo : (strtol choice <? 1) || (strtol choice >? 5) = false).
      { apply orb_false_intro; [apply Z.ltb_ge | rewrite Z.gtb_ltb; apply Z.ltb_ge]; lia. }
      rewrite Eo.
      destruct (strtol terms_arg <=? 0); [discriminate|].
      destruct (do_series fuel (strtol choice - 1) (to_int (strtol terms_arg)));
        discriminate.
Qed.

Lemma all_choice_by_first_character_witness :
  main (fun _ => true) 1000 ["pi_infseries"; "abc"; "1000"]%string <> Some invalid_option
  /\ main (fun _ => true) 1000 ["pi_infseries"; "3"; "1000"]%string <> Some invalid_option.
Proof.
  split.
  - apply (proj1 (all_choice_by_first_character (fun _ => true) 1000
                    "pi_infseries" "abc" "1000")).
    reflexivity.
  - apply (proj2 (all_choice_by_first_character (fun _ => true) 1000
                    "pi_infseries" "3" "1000")).
    + vm_compute. discriminate.
    + vm_compute. split; discriminate.
Defined.

End SeriesProofs.

(** ** The binary splitting of pi_chudnovsky.c *)

Module ChudnovskyProofs.
Import CInt CIntFacts Libc Chudnovsky SpecWords Rounding.

(** The cut points of a decomposition stay inside the range. *)
Lemma decomposes_le cuts : forall lo n, decomposes lo n cuts -> lo <= n.
Proof.
  induction cuts as [|c rest IH]; intros lo n Hd.
  - simpl in Hd. lia.
  - destruct Hd as [Hc Hd]. specialize (IH c n Hd). lia.
Qed.

Section AnyArithmetic.
Context {F : Type} `{PiFlt F}.

(** The two branches of the function. *)
Lemma binarysplit_unit fuel a b :
  wrap64 (b - a) = 1 ->
  chudnovsky_binarysplit (F:=F) (S fuel) a b = Some (unit_range a).
Proof. intros E. simpl. rewrite E. reflexivity. Qed.

Lemma binarysplit_split fuel a b :
  wrap64 (b - a) <> 1 ->
  chudnovsky_binarysplit (F:=F) (S fuel) a b =
  match chudnovsky_binarysplit fuel a (wrap64 (a + b) / 2) with
  | None => None
  | Some am =>
      match chudnovsky_binarysplit fuel (wrap64 (a + b) / 2) b with
      | None => None
      | Some mb => Some (combine am mb)
      end
  end.
Proof.
  intros E. simpl. apply Z.eqb_neq in E. rewrite E. reflexivity.
Qed.

(** More fuel does not change a result. *)
Lemma binarysplit_more_fuel :
  forall fuel fuel' a b r,
    chudnovsky_binarysplit (F:=F) fuel a b = Some r ->
    (fuel <= fuel')%nat ->
    chudnovsky_binarysplit fuel' a b = Some r.
Proof.
  induction fuel as [|fuel IH]; intros fuel' a b r Hr Hle; [discriminate|].
  destruct fuel' as [|fuel']; [lia|].
  simpl in Hr |- *.
  destruct (wrap64 (b - a) =? 1); [exact Hr|].
  destruct (chudnovsky_binarysplit fuel a (wrap64 (a + b) / 2)) as [am|] eqn:E1;
    [|discriminate].
  destruct (chudnovsky_binarysplit fuel (wrap64 (a + b) / 2) b) as [mb|] eqn:E2;
    [|discriminate].
  rewrite (IH fuel' _ _ _ E1) by lia.
  rewrite (IH fuel' _ _ _ E2) by lia.
  exact Hr.
Qed.

(** Where no [pi_uint] operation wraps, the midpoint lies strictly inside
    the range. *)
Lemma midpoint_inside a b :
  0 <= a -> a + 1 < b -> b <= 2 ^ 63 ->
  wrap64 (b - a) <> 1 /\ a < wrap64 (a + b) / 2 < b.
Proof.
  intros Ha Hab Hb.
  rewrite !wrap64_small by (unfold U64_MOD; lia).
  split; [lia|]. Z.div_mod_to_equations. lia.
Qed.

Lemma unit_width a b :
  0 <= a -> a < b -> b <= 2 ^ 63 -> wrap64 (b - a) = 1 <-> b = a + 1.
Proof.
  intros Ha Hab Hb. rewrite wrap64_small by (unfold U64_MOD; lia). lia.
Qed.

(** The function returns on every range below 2^63. *)
Lemma binarysplit_returns :
  forall fuel a b,
    0 <= a -> a < b -> b <= 2 ^ 63 ->
    (Z.to_nat (b - a) <= fuel)%nat ->
    exists r, chudnovsky_binarysplit (F:=F) fuel a b = Some r.
Proof.
  induction fuel as [|fuel IH]; intros a b Ha Hab Hb Hf; [lia|].
  destruct (Z.eq_dec b (a + 1)) as [E | NE].
  - exists (unit_range a). apply binarysplit_unit.
    apply unit_width; assumption.
  - destruct (midpoint_inside a b Ha ltac:(lia) Hb) as [Hw Hm].
    rewrite binarysplit_split by exact Hw.
    destruct (IH a (wrap64 (a + b) / 2)) as [am Eam]; try lia.
    destruct (IH (wrap64 (a + b) / 2) b) as [mb Emb]; try lia.
    rewrite Eam, Emb. eexists. reflexivity.
Qed.

(** The depth allowed to the recursion does not show in its result. *)
Lemma binarysplit_one_result fuel fuel' a b (r r' : result_flts F) :
  chudnovsky_binarysplit fuel a b = Some r ->
  chudnovsky_binarysplit fuel' a b = Some r' ->
  r = r'.
Proof.
  intros E E'.
  apply (binarysplit_more_fuel _ (Nat.max fuel fuel')) in E; [|lia].
  apply (binarysplit_more_fuel _ (Nat.max fuel fuel')) in E'; [|lia].
  congruence.
Qed.

(** Every decomposition is evaluated to the end. *)
Lemma merge_from_left_returns :
  forall cuts fuel (acc : result_flts F) lo n,
    0 <= lo -> n <= 2 ^ 63 -> decomposes lo n cuts ->
    (Z.to_nat n <= fuel)%nat ->
    exists r, merge_from_left fuel acc lo cuts = Some r.
Proof.
  induction cuts as [|hi rest IH]; intros fuel acc lo n Hlo Hn Hd Hf.
  - eexists. reflexivity.
  - destruct Hd as [Hhi Hd]. pose proof (decomposes_le _ _ _ Hd) as Hle.
    cbn [merge_from_left].
    destruct (binarysplit_returns fuel lo hi) as [r Er]; try lia.
    rewrite Er. apply (IH fuel _ hi n); try assumption; lia.
Qed.

Lemma split_ranges_returns fuel n cuts :
  0 < n -> n <= 2 ^ 63 -> decomposes 0 n cuts -> (Z.to_nat n <= fuel)%nat ->
  exists r : result_flts F, split_ranges fuel 0 cuts = Some r.
Proof.
  intros Hn Hb Hd Hf.
  destruct cuts as [|hi rest]; [simpl in Hd; lia|].
  destruct Hd as [Hhi Hd]. pose proof (decomposes_le _ _ _ Hd) as Hle.
  cbn [split_ranges].
  destruct (binarysplit_returns fuel 0 hi) as [r1 E1]; try lia.
  rewrite E1. apply (merge_from_left_returns rest fuel r1 hi n); try assumption; lia.
Qed.

End AnyArithmetic.

(** *** Exact arithmetic: the merge is associative *)

Lemma combine_assoc (x y z : result_flts Z) :
  combine (combine x y) z = combine x (combine y z).
Proof.
  unfold combine. cbn [Pab Qab Tab flt_mul flt_add PiFlt_exact].
  f_equal; ring.
Qed.

Lemma units_from_left_split (a : Z) (j k : nat) :
  units_from_left (F:=Z) a (j + S k)
  = combine (units_from_left a j) (units_from_left (a + Z.of_nat j + 1) k).
Proof.
  induction k as [|k IH].
  - rewrite Nat.add_1_r. cbn [units_from_left].
    do 2 f_equal. lia.
  - rewrite Nat.add_succ_r. cbn [units_from_left].
    rewrite IH, combine_assoc.
    do 3 f_equal. lia.
Qed.

(** Without rounding, the midpoint recursion on [a, b) is the merge of its
    unit ranges from the left. *)
Lemma binarysplit_exact :
  forall fuel a b,
    0 <= a -> a < b -> b <= 2 ^ 63 ->
    (Z.to_nat (b - a) <= fuel)%nat ->
    chudnovsky_binarysplit (F:=Z) fuel a b
    = Some (units_from_left a (Z.to_nat (b - a - 1))).
Proof.
  induction fuel as [|fuel IH]; intros a b Ha Hab Hb Hf; [lia|].
  destruct (Z.eq_dec b (a + 1)) as [E | NE].
  - rewrite binarysplit_unit by (apply unit_width; assumption).
    subst b. replace (a + 1 - a - 1) with 0 by lia. reflexivity.
  - destruct (midpoint_inside a b Ha ltac:(lia) Hb) as [Hw Hm].
    rewrite binarysplit_split by exact Hw.
    set (m := wrap64 (a + b) / 2) in *.
    rewrite (IH a m) by lia.
    rewrite (IH m b) by lia.
    f_equal.
    replace (Z.to_nat (b - a - 1))
      with (Z.to_nat (m - a - 1) + S (Z.to_nat (b - m - 1)))%nat by lia.
    rewrite units_from_left_split.
    do 2 f_equal. lia.
Qed.

Lemma merge_from_left_exact :
  forall cuts fuel lo0 lo n,
    0 <= lo0 -> lo0 < lo -> n <= 2 ^ 63 ->
    decomposes lo n cuts ->
    (Z.to_nat (n - lo0) <= fuel)%nat ->
    merge_from_left (F:=Z) fuel (units_from_left lo0 (Z.to_nat (lo - lo0 - 1))) lo cuts
    = Some (units_from_left lo0 (Z.to_nat (n - lo0 - 1))).
Proof.
  induction cuts as [|hi rest IH]; intros fuel lo0 lo n H0 Hlo Hn Hd Hf.
  - simpl in Hd. subst n. reflexivity.
  - destruct Hd as [Hhi Hd].
    assert (Hle : hi <= n).
    { clear - Hd. revert hi Hd. induction rest as [|c rest IHr]; intros hi Hd.
      - simpl in Hd. lia.
      - destruct Hd as [Hc Hd]. specialize (IHr c Hd). lia. }
    cbn [merge_from_left].
    rewrite binarysplit_exact by lia.
    replace (combine (units_from_left lo0 (Z.to_nat (lo - lo0 - 1)))
                     (units_from_left lo (Z.to_nat (hi - lo - 1))))
      with (units_from_left (F:=Z) lo0 (Z.to_nat (hi - lo0 - 1))).
    + apply IH; try assumption; lia.
    + replace (Z.to_nat (hi - lo0 - 1))
        with (Z.to_nat (lo - lo0 - 1) + S (Z.to_nat (hi - lo - 1)))%nat by lia.
      rewrite units_from_left_split. do 2 f_equal. lia.
Qed.

(** Without rounding every decomposition gives the triplet of the midpoint
    recursion. *)
Lemma exact_merge (n : Z) (cuts : list Z) (fuel : nat) :
  0 < n ->
  n <= 2 ^ 63 ->
  decomposes 0 n cuts ->
  (Z.to_nat n <= fuel)%nat ->
  exists r : result_flts Z,
    chudnovsky_binarysplit fuel 0 n = Some r
    /\ split_ranges fuel 0 cuts = Some r.
Proof.
  intros Hn Hb Hd Hf.
  exists (units_from_left 0 (Z.to_nat (n - 0 - 1))).
  split; [apply binarysplit_exact; lia|].
  destruct cuts as [|hi rest]; [simpl in Hd; lia|].
  destruct Hd as [Hhi Hd]. pose proof (decomposes_le _ _ _ Hd) as Hle.
  cbn [split_ranges].
  rewrite binarysplit_exact by lia.
  apply merge_from_left_exact; try assumption; lia.
Qed.

(** *** Double arithmetic: the merges stay close *)

Lemma sf_eqb_eq x y : sf_eqb x y = true -> x = y.
Proof.
  destruct x as [a|a| |a m e], y as [b|b| |b m' e']; simpl; try discriminate;
    try reflexivity.
  - intros E. apply Bool.eqb_prop in E. congruence.
  - intros E. apply Bool.eqb_prop in E. congruence.
  - intros E. apply andb_prop in E. destruct E as [E E3].
    apply andb_prop in E. destruct E as [E1 E2].
    apply Bool.eqb_prop in E1. apply Pos.eqb_eq in E2. apply Z.eqb_eq in E3.
    congruence.
Qed.

Lemma same_float_eq x y : same_float x y = true -> x = y.
Proof.
  unfold same_float. destruct (PrimFloat.eqb x y); [|discriminate].
  intros E. apply Prim2SF_inj, sf_eqb_eq, E.
Qed.

Lemma same_triplet_eq r1 r2 : same_triplet r1 r2 = true -> r1 = r2.
Proof.
  unfold same_triplet.
  destruct (same_float (Tab r1) (Tab r2)) eqn:ET; [|discriminate].
  destruct (same_float (Qab r1) (Qab r2)) eqn:EQ; [|discriminate].
  intros EP.
  apply same_float_eq in ET, EQ, EP.
  destruct r1, r2. cbn in *. congruence.
Qed.

Lemma member_In r l : member r l = true -> In r l.
Proof.
  unfold member. intros E. apply existsb_exists in E.
  destruct E as [x [Hx Ex]]. apply same_triplet_eq in Ex. subst x. exact Hx.
Qed.

(** What a closed table says about the merges of the program, at any depth
    of recursion allowed to them. *)
Section Certificate.
Variable k : Z.
Variable fuel0 N : nat.
Variable sets : list (list (result_flts float)).
Hypothesis Hclosed : closed fuel0 N sets = true.
Hypothesis Hwithin : within k fuel0 N sets = true.

Lemma table_has_whole_ranges fuel hi r :
  0 < hi <= Z.of_nat N ->
  chudnovsky_binarysplit (F:=float) fuel 0 hi = Some r ->
  In r (nth (Z.to_nat hi) sets []).
Proof.
  intros Hhi Er.
  unfold closed in Hclosed. rewrite forallb_forall in Hclosed.
  specialize (Hclosed (Z.to_nat hi)).
  rewrite in_seq in Hclosed. specialize (Hclosed ltac:(lia)).
  apply andb_prop in Hclosed. destruct Hclosed as [Ha _].
  unfold range in Ha. rewrite Z2Nat.id in Ha by lia.
  change (Z.of_nat 0) with 0 in Ha.
  destruct (chudnovsky_binarysplit fuel0 0 hi) as [r0|] eqn:E0; [|discriminate].
  rewrite (binarysplit_one_result _ _ _ _ _ _ Er E0).
  apply member_In, Ha.
Qed.

Lemma table_has_merges fuel lo hi acc r :
  0 < lo -> lo < hi -> hi <= Z.of_nat N ->
  In acc (nth (Z.to_nat lo) sets []) ->
  chudnovsky_binarysplit (F:=float) fuel lo hi = Some r ->
  In (combine acc r) (nth (Z.to_nat hi) sets []).
Proof.
  intros Hlo Hhi HN Hacc Er.
  unfold closed in Hclosed. rewrite forallb_forall in Hclosed.
  specialize (Hclosed (Z.to_nat hi)).
  rewrite in_seq in Hclosed. specialize (Hclosed ltac:(lia)).
  apply andb_prop in Hclosed. destruct Hclosed as [_ Hb].
  rewrite forallb_forall in Hb. specialize (Hb (Z.to_nat lo)).
  rewrite in_seq in Hb. specialize (Hb ltac:(lia)).
  unfold range in Hb. rewrite !Z2Nat.id in Hb by lia.
  destruct (chudnovsky_binarysplit fuel0 lo hi) as [r0|] eqn:E0; [|discriminate].
  rewrite forallb_forall in Hb.
  rewrite (binarysplit_one_result _ _ _ _ _ _ Er E0).
  apply member_In, Hb, Hacc.
Qed.

Lemma merge_stays_in_table :
  forall cuts fuel lo n acc r,
    0 < lo -> n <= Z.of_nat N -> decomposes lo n cuts ->
    In acc (nth (Z.to_nat lo) sets []) ->
    merge_from_left fuel acc lo cuts = Some r ->
    In r (nth (Z.to_nat n) sets []).
Proof.
  induction cuts as [|hi rest IH]; intros fuel lo n acc r Hlo Hn Hd Hacc Er.
  - simpl in Hd, Er. subst n. injection Er as <-. exact Hacc.
  - destruct Hd as [Hhi Hd]. pose proof (decomposes_le _ _ _ Hd) as Hle.
    cbn [merge_from_left] in Er.
    destruct (chudnovsky_binarysplit fuel lo hi) as [r1|] eqn:E1; [|discriminate].
    apply (IH fuel hi n (combine acc r1) r); try assumption; try lia.
    apply (table_has_merges fuel lo hi); try assumption; lia.
Qed.

Lemma split_ranges_in_table fuel n cuts r :
  n <= Z.of_nat N -> decomposes 0 n cuts ->
  split_ranges fuel 0 cuts = Some r ->
  In r (nth (Z.to_nat n) sets []).
Proof.
  intros Hn Hd Er.
  destruct cuts as [|hi rest]; [discriminate|].
  destruct Hd as [Hhi Hd]. pose proof (decomposes_le _ _ _ Hd) as Hle.
  cbn [split_ranges] in Er.
  destruct (chudnovsky_binarysplit fuel 0 hi) as [r1|] eqn:E1; [|discriminate].
  apply (merge_stays_in_table rest fuel hi n r1 r); try assumption.
  apply (table_has_whole_ranges fuel); [lia|exact E1].
Qed.

Lemma table_entries_agree fuel n ref r :
  0 < n <= Z.of_nat N ->
  chudnovsky_binarysplit (F:=float) fuel 0 n = Some ref ->
  In r (nth (Z.to_nat n) sets []) ->
  triplets_agree k ref r = true.
Proof.
  intros Hn Eref Hr.
  unfold within in Hwithin. rewrite forallb_forall in Hwithin.
  specialize (Hwithin (Z.to_nat n)).
  rewrite in_seq in Hwithin. specialize (Hwithin ltac:(lia)).
  unfold range in Hwithin. rewrite Z2Nat.id in Hwithin by lia.
  change (Z.of_nat 0) with 0 in Hwithin.
  destruct (chudnovsky_binarysplit fuel0 0 n) as [r0|] eqn:E0; [|discriminate].
  rewrite forallb_forall in Hwithin.
  rewrite (binarysplit_one_result _ _ _ _ _ _ Eref E0).
  apply Hwithin, Hr.
Qed.

End Certificate.

(** The table for the ranges up to [0, 17), computed and then checked. *)
Lemma closed_table_17 :
  exists sets, closed 6 17 sets = true /\ within 50 6 17 sets = true.
Proof.
  let table := eval vm_compute in (all_sets 6 17) in exists table.
  split; vm_compute; reflexivity.
Qed.

Lemma double_merge_close (n : Z) (cuts : list Z) (fuel : nat) :
  0 < n -> n <= 17 -> decomposes 0 n cuts -> (Z.to_nat n <= fuel)%nat ->
  exists ref r : result_flts float,
    chudnovsky_binarysplit fuel 0 n = Some ref
    /\ split_ranges fuel 0 cuts = Some r
    /\ triplets_agree 50 ref r = true.
Proof.
  intros Hn Hb Hd Hf.
  destruct (binarysplit_returns (F:=float) fuel 0 n) as [ref Eref]; try lia.
  destruct (split_ranges_returns (F:=float) fuel n cuts) as [r Er];
    try assumption; try lia.
  exists ref, r. split; [exact Eref|]. split; [exact Er|].
  destruct closed_table_17 as [sets [Hclosed Hwithin]].
  apply (table_entries_agree 50 6 17 sets Hwithin fuel n); [lia|exact Eref|].
  apply (split_ranges_in_table 6 17 sets Hclosed fuel n cuts); try assumption; lia.
Qed.

(** With 18 terms Q is beyond the range of [double]. *)
Lemma double_overflows_at_18 :
  exists r : result_flts float,
    chudnovsky_binarysplit 6 0 18 = Some r /\ Qab r = infinity.
Proof. eexists. split; vm_compute; reflexivity. Qed.

(** C4, as amended.  Take any decomposition of a range [0, n) into adjacent
    sub-ranges, each evaluated by the midpoint recursion and the results
    merged pairwise from the left.  With the triplets held in exact
    arithmetic (integers for [pi_flt]) and n up to 2^63, the merge is the
    triplet the midpoint recursion gives on [0, n).  In the program's
    [double] and n up to 17, both are finite and each of P, Q and T of the
    merge is within 2^-50 of the magnitude of the midpoint recursion's. *)
Theorem merge_any_decomposition (n : Z) (cuts : list Z) (fuel : nat) :
  0 < n ->
  decomposes 0 n cuts ->
  (Z.to_nat n <= fuel)%nat ->
  (n <= 2 ^ 63 ->
   exists r : result_flts Z,
     chudnovsky_binarysplit fuel 0 n = Some r
     /\ split_ranges fuel 0 cuts = Some r)
  /\ (n <= 17 ->
      exists ref r : result_flts float,
        chudnovsky_binarysplit fuel 0 n = Some ref
        /\ split_ranges fuel 0 cuts = Some r
        /\ triplets_agree 50 ref r = true).
Proof.
  intros Hn Hd Hf. split; intros Hb.
  - apply exact_merge; assumption.
  - apply double_merge_close; assumption.
Qed.

Lemma merge_any_decomposition_witness :
  (exists r : result_flts Z,
     chudnovsky_binarysplit 4 0 4 = Some r
     /\ split_ranges 4 0 [1; 2; 3; 4] = Some r)
  /\ (exists ref r : result_flts float,
        chudnovsky_binarysplit 4 0 4 = Some ref
        /\ split_ranges 4 0 [1; 2; 3; 4] = Some r
        /\ triplets_agree 50 ref r = true).
Proof.
  destruct (merge_any_decomposition 4 [1; 2; 3; 4] 4) as [Hexact Hdouble].
  - lia.
  - simpl. lia.
  - vm_compute. reflexivity.
  - split; [apply Hexact; lia | apply Hdouble; lia].
Defined.

(** C4, as stated, fails in the program's arithmetic: in [double] the
    claim's own example differs in Q.  [0,2) merged with [2,4) is the
    midpoint evaluation of [0,4); the four unit ranges merged from the left
    round differently. *)
Lemma double_merge_depends_on_the_split :
  exists r1 r2 : result_flts float,
    chudnovsky_binarysplit 3 0 4 = Some r1
    /\ split_ranges 3 0 [2; 4] = Some r1
    /\ split_ranges 3 0 [1; 2; 3; 4] = Some r2
    /\ Qab r1 = 2.8274415033834932e+50%float
    /\ Qab r2 = 2.8274415033834936e+50%float
    /\ r1 <> r2.
Proof.
  eexists. eexists.
  split; [vm_compute; reflexivity|].
  split; [vm_compute; reflexivity|].
  split; [vm_compute; reflexivity|].
  split; [reflexivity|].
  split; [reflexivity|].
  intros E. apply (f_equal Qab) in E. cbn [Qab] in E.
  assert (Ne : PrimFloat.eqb 2.8274415033834932e+50 2.8274415033834936e+50 = false)
    by (vm_compute; reflexivity).
  rewrite E in Ne. vm_compute in Ne. discriminate.
Qed.

(** *** The unit range *)

(** Up to a = 2642245 the cube fits the 64 bits of [pi_uint]. *)
Lemma cube_fits a :
  0 <= a <= 2642245 -> wrap64 (wrap64 (a * a) * a) = a ^ 3.
Proof.
  intros Ha.
  assert (H2 : 0 <= a * a <= 2642245 * 2642245) by nia.
  assert (H3 : 0 <= a * a * a <= 2642245 * 2642245 * 2642245) by nia.
  rewrite (wrap64_small (a * a)) by (unfold U64_MOD; lia).
  rewrite wrap64_small by (unfold U64_MOD; lia).
  ring.
Qed.

(** The unit range as the formulas give it, while the cube fits. *)
Lemma unit_range_formulas {F : Type} `{PiFlt F} (a : Z) :
  0 < a <= 2642245 ->
  let fa := flt_of_int a in
  let P := flt_mul (flt_mul (flt_sub (flt_mul (flt_of_int 6) fa) (flt_of_int 5))
                            (flt_sub (flt_mul (flt_of_int 2) fa) (flt_of_int 1)))
                   (flt_sub (flt_mul (flt_of_int 6) fa) (flt_of_int 1)) in
  let T := flt_mul P (flt_add (flt_mul (flt_of_int 545140134) fa) (flt_of_int 13591409)) in
  unit_range (F:=F) a
  = mk_result P (flt_mul (flt_of_int (a ^ 3)) (flt_of_int 10939058860032000))
              (if Z.odd a then flt_neg T else T).
Proof.
  intros Ha. unfold unit_range.
  assert (E0 : (a =? 0) = false) by (apply Z.eqb_neq; lia). rewrite E0.
  rewrite cube_fits by lia.
  assert (El : (Z.land a 1 =? 0) = negb (Z.odd a)).
  { change 1 with (Z.ones 1). rewrite Z.land_ones by lia.
    change (2 ^ 1) with 2. rewrite Zmod_odd.
    destruct (Z.odd a); reflexivity. }
  rewrite El. destruct (Z.odd a); reflexivity.
Qed.

(** C3, at the first unit range whose cube does not fit: a = 2642246.
    The code multiplies the wrapped cube 1054987151320 by the constant,
    which gives about 1.15e28, where a^3 * 10939058860032000 is about
    2.02e35. *)
Theorem unit_range_cube_wraps :
  exists r : result_flts float,
    chudnovsky_binarysplit 1 2642246 2642247 = Some r
    /\ wrap64 (wrap64 (2642246 * 2642246) * 2642246) = 1054987151320
    /\ Qab r = (Double.of_int 1054987151320 * 10939058860032000)%float
    /\ Qab r = 1.1540566544866966e+28%float
    /\ (Double.of_int (2642246 ^ 3) * 10939058860032000)%float
       = 2.0179003073882177e+35%float.
Proof.
  eexists.
  split; [vm_compute; reflexivity|].
  split; [vm_compute; reflexivity|].
  split; [vm_compute; reflexivity|].
  split; vm_compute; reflexivity.
Qed.

(** The function as it reads, on the ranges where no [pi_uint] operation
    wraps: a unit range by the formulas, any other by the merge of its two
    halves at the midpoint. *)
Lemma binarysplit_as_written {F : Type} `{PiFlt F} (fuel : nat) (a b : Z) :
  0 <= a -> a < b -> b <= 2 ^ 63 ->
  (b = a + 1 -> chudnovsky_binarysplit (F:=F) (S fuel) a b = Some (unit_range a))
  /\ (b <> a + 1 ->
      chudnovsky_binarysplit (F:=F) (S fuel) a b =
      match chudnovsky_binarysplit fuel a ((a + b) / 2),
            chudnovsky_binarysplit fuel ((a + b) / 2) b with
      | Some am, Some mb => Some (combine am mb)
      | _, _ => None
      end).
Proof.
  intros Ha Hab Hb. split; intros E.
  - apply binarysplit_unit. apply unit_width; assumption.
  - destruct (midpoint_inside a b Ha ltac:(lia) Hb) as [Hw _].
    rewrite binarysplit_split by exact Hw.
    rewrite (wrap64_small (a + b)) by (unfold U64_MOD; lia).
    destruct (chudnovsky_binarysplit fuel a ((a + b) / 2)); [|reflexivity].
    destruct (chudnovsky_binarysplit fuel ((a + b) / 2) b); reflexivity.
Qed.

(** *** The entry point *)

(** For the first thousand digit counts the upper end of the range is the
    whole part of 2 D / 14.181647462725477, plus one: the rounding of the
    division does not show. *)
Lemma terms_of_small_counts :
  forallb (fun D => match binarysplit_terms (D * 2) with
                    | Some n => n =? spec_terms_cut (2 * D)
                    | None => false
                    end)
          (map Z.of_nat (seq 1 1000)) = true.
Proof. vm_compute. reflexivity. Qed.

(** C5, at the input "0": the digit count 0 passes the test [digits < 0],
    one term is evaluated and the program prints 3 and exits with status 0;
    "-1" is turned away with the message that names the intended bound. *)
Theorem zero_digits_exits_successfully (fuel : nat) :
  main Double.pow_integral (S fuel) ["pi_chudnovsky"; "0"]%string
  = Some (Returned EXIT_SUCCESS ("Pi approximation: 3" ++ nl) "")
  /\ main Double.pow_integral (S fuel) ["pi_chudnovsky"; "-1"]%string
     = Some (Returned EXIT_FAILURE "" ("Digits count must be larger than 0." ++ nl)).
Proof. split; vm_compute; reflexivity. Qed.

(** C2, as stated, fails on the number of terms: the code divides the
    doubled digit count.  For 29 digits it evaluates [0, 5), where
    29/14.18... + 1 is 3.04...; for 1 digit it evaluates [0, 1), below the
    sum rounded up; for 8 digits [0, 2), above the quotient cut and
    increased by one. *)
Lemma terms_come_from_the_doubled_count :
  binarysplit_terms (29 * 2) = Some 5
  /\ spec_terms_ceiling 29 = 4 /\ spec_terms_cut 29 = 3
  /\ binarysplit_terms (1 * 2) = Some 1 /\ spec_terms_ceiling 1 = 2
  /\ binarysplit_terms (8 * 2) = Some 2 /\ spec_terms_cut 8 = 1.
Proof. repeat split; vm_compute; reflexivity. Qed.

(** What [main] does with a digit count it accepts, once the upper end of
    the range is known. *)
Lemma main_on_valid_count
  (pow : float -> float -> float) (prog arg : string) (D n : Z) (fuel : nat) :
  0 <= D ->
  strtol arg = D ->
  D * 2 <= LONG_MAX ->
  binarysplit_terms (D * 2) = Some n ->
  0 < n <= 2 ^ 63 ->
  (Z.to_nat n <= fuel)%nat ->
  exists res : result_flts float,
    chudnovsky_binarysplit fuel 0 n = Some res
    /\ main pow fuel [prog; arg]
       = Some match pi_integer pow (D * 2) res with
              | Some pi =>
                  Returned EXIT_SUCCESS
                    ("Pi approximation: " ++ string_of_list_ascii (printf_ld pi) ++ nl) ""
              | None => Undefined
              end.
Proof.
  intros HD Harg Hlong Hterms Hn Hfuel.
  destruct (binarysplit_returns (F:=float) fuel 0 n) as [res Hres]; try lia.
  exists res. split; [exact Hres|].
  unfold main. rewrite Harg.
  assert (El : in_long (D * 2) = true).
  { unfold in_long, LONG_MIN, LONG_MAX in *.
    apply andb_true_intro. split; apply Z.leb_le; lia. }
  rewrite El. cbn [negb].
  assert (En : (D * 2 <? 0) = false) by (apply Z.ltb_ge; lia).
  rewrite En, Hterms, Hres.
  destruct (pi_integer pow (D * 2) res); reflexivity.
Qed.

(** C2, as amended.  For a digit count D > 0 whose double is a [long],
    [main] evaluates the range [0, n) with n one more than the integral
    part of (double)(2 D) / 14.181647462725477, and prints the integral
    part of Q * 426880 * sqrt(10005 * 10^(2 D)) / T for the triplet of that
    range, exiting with status 0; the run is undefined when that quotient
    is not a value of the unsigned 64-bit type. *)
Theorem main_prints_the_quotient
  (pow : float -> float -> float) (prog arg : string) (D n : Z) (fuel : nat) :
  0 < D ->
  strtol arg = D ->
  D * 2 <= LONG_MAX ->
  binarysplit_terms (D * 2) = Some n ->
  0 < n <= 2 ^ 63 ->
  (Z.to_nat n <= fuel)%nat ->
  exists res : result_flts float,
    chudnovsky_binarysplit fuel 0 n = Some res
    /\ main pow fuel [prog; arg]
       = Some match pi_integer pow (D * 2) res with
              | Some pi =>
                  Returned EXIT_SUCCESS
                    ("Pi approximation: " ++ string_of_list_ascii (printf_ld pi) ++ nl) ""
              | None => Undefined
              end.
Proof.
  intros HD Harg Hlong Hterms Hn Hfuel.
  apply main_on_valid_count; try assumption. lia.
Qed.

Lemma main_prints_the_quotient_witness :
  exists res : result_flts float,
    chudnovsky_binarysplit 2 0 2 = Some res
    /\ main Double.pow_integral 2 ["pi_chudnovsky"; "10"]%string
       = Some match pi_integer Double.pow_integral (10 * 2) res with
              | Some pi =>
                  Returned EXIT_SUCCESS
                    ("Pi approximation: " ++ string_of_list_ascii (printf_ld pi) ++ nl) ""
              | None => Undefined
              end.
Proof.
  apply (main_prints_the_quotient Double.pow_integral "pi_chudnovsky" "10" 10 2 2).
  - lia.
  - vm_compute. reflexivity.
  - unfold LONG_MAX. lia.
  - vm_compute. reflexivity.
  - lia.
  - vm_compute. reflexivity.
Defined.

(** Up to a thousand digits the range is known in exact terms, and the run
    needs no assumption on it. *)
Lemma main_up_to_a_thousand_digits
  (pow : float -> float -> float) (prog arg : string) (D : Z) (fuel : nat) :
  1 <= D <= 1000 ->
  strtol arg = D ->
  (Z.to_nat (spec_terms_cut (2 * D)) <= fuel)%nat ->
  exists res : result_flts float,
    chudnovsky_binarysplit fuel 0 (spec_terms_cut (2 * D)) = Some res
    /\ main pow fuel [prog; arg]
       = Some match pi_integer pow (D * 2) res with
              | Some pi =>
                  Returned EXIT_SUCCESS
                    ("Pi approximation: " ++ string_of_list_ascii (printf_ld pi) ++ nl) ""
              | None => Undefined
              end.
Proof.
  intros HD Harg Hfuel.
  pose proof terms_of_small_counts as Htab.
  rewrite forallb_forall in Htab.
  assert (Hin : In D (map Z.of_nat (seq 1 1000))).
  { apply in_map_iff. exists (Z.to_nat D). split; [lia|].
    apply in_seq. lia. }
  specialize (Htab D Hin). cbv beta in Htab.
  destruct (binarysplit_terms (D * 2)) as [n|] eqn:Hterms; [|discriminate].
  apply Z.eqb_eq in Htab. subst n.
  assert (Hrange : 0 < spec_terms_cut (2 * D) <= 2 ^ 63).
  { unfold spec_terms_cut, digits_per_term_e15.
    assert (0 <= 2 * D * 10 ^ 15 / 14181647462725477 <= 2 * D * 10 ^ 15)
      by (split; [apply Z.div_pos; lia | apply Z.div_le_upper_bound; lia]).
    lia. }
  apply main_on_valid_count; try assumption; unfold LONG_MAX; lia.
Qed.

(** The run the specification's end-to-end example describes. *)
Example ten_digits :
  main Double.pow_integral 2 ["pi_chudnovsky"; "10"]%string
  = Some (Returned EXIT_SUCCESS ("Pi approximation: 31415926535" ++ nl) "").
Proof. vm_compute. reflexivity. Qed.

End ChudnovskyProofs.

(** ** The sampler and the orchestrator of pi_mcarlo.c *)

Module MCarloProofs.
Import CInt CIntFacts Libc MCarlo.

Section Sampler.
Variable RAND_MAX : Z.

(** The counting loop runs its body once for each value of the counter. *)
Lemma for_counter_runs {St : Type} (body : St -> St) :
  forall fuel i n s,
    0 <= i <= n -> n < U64_MOD ->
    (Z.to_nat (n - i) < fuel)%nat ->
    for_counter fuel i n body s = Some (Nat.iter (Z.to_nat (n - i)) body s).
Proof.
  induction fuel as [|fuel IH]; intros i n s Hi Hn Hf; [lia|].
  simpl. destruct (i <? n) eqn:E.
  - apply Z.ltb_lt in E.
    rewrite wrap64_small by lia.
    rewrite IH by lia.
    replace (Z.to_nat (n - i)) with (S (Z.to_nat (n - (i + 1)))) by lia.
    rewrite Nat.iter_succ_r. reflexivity.
  - apply Z.ltb_ge in E.
    replace (n - i) with 0 by lia. reflexivity.
Qed.

(** One pass increments the inside counter for a point in the quadrant and
    the outside counter for any other. *)
Lemma sample_point_classifies (st : sampler) :
  let '(randX, randY) := drawn_point RAND_MAX st in
  if in_quadrant randX randY
  then inside (sample_point RAND_MAX st) = wrap64 (inside st + 1)
       /\ outside (sample_point RAND_MAX st) = outside st
  else outside (sample_point RAND_MAX st) = wrap64 (outside st + 1)
       /\ inside (sample_point RAND_MAX st) = inside st.
Proof.
  unfold drawn_point, sample_point.
  destruct (fastrand01 RAND_MAX (seed st)) as [randX s1].
  destruct (fastrand01 RAND_MAX s1) as [randY s2].
  destruct (in_quadrant randX randY); split; reflexivity.
Qed.

(** One pass increments exactly one of the two counters. *)
Lemma sample_point_increments_one (st : sampler) :
  (inside (sample_point RAND_MAX st) = wrap64 (inside st + 1)
   /\ outside (sample_point RAND_MAX st) = outside st)
  \/ (outside (sample_point RAND_MAX st) = wrap64 (outside st + 1)
      /\ inside (sample_point RAND_MAX st) = inside st).
Proof.
  unfold sample_point.
  destruct (fastrand01 RAND_MAX (seed st)) as [randX s1].
  destruct (fastrand01 RAND_MAX s1) as [randY s2].
  destruct (in_quadrant randX randY); [left | right]; split; reflexivity.
Qed.

Lemma sample_point_sum (st : sampler) :
  wrap64 (outside (sample_point RAND_MAX st) + inside (sample_point RAND_MAX st))
  = wrap64 (outside st + inside st + 1).
Proof.
  destruct (sample_point_increments_one st) as [[Ei Eo] | [Eo Ei]];
    rewrite Ei, Eo; unfold wrap64.
  - rewrite Z.add_mod_idemp_r by (unfold U64_MOD; lia). f_equal. lia.
  - rewrite Z.add_mod_idemp_l by (unfold U64_MOD; lia). f_equal. lia.
Qed.

Lemma samples_sum (k : nat) (st : sampler) :
  wrap64 (outside (Nat.iter k (sample_point RAND_MAX) st)
          + inside (Nat.iter k (sample_point RAND_MAX) st))
  = wrap64 (outside st + inside st + Z.of_nat k).
Proof.
  induction k as [|k IH].
  - simpl. f_equal. lia.
  - rewrite Nat.iter_succ, sample_point_sum.
    unfold wrap64 in *.
    rewrite <- Z.add_mod_idemp_l by (unfold U64_MOD; lia).
    rewrite IH.
    rewrite Z.add_mod_idemp_l by (unfold U64_MOD; lia).
    f_equal. lia.
Qed.

(** While the total stays below 2^64 no counter wraps. *)
Lemma samples_sum_exact (k : nat) (st : sampler) :
  0 <= outside st -> 0 <= inside st ->
  outside st + inside st + Z.of_nat k < U64_MOD ->
  let st' := Nat.iter k (sample_point RAND_MAX) st in
  0 <= outside st' /\ 0 <= inside st'
  /\ outside st' + inside st' = outside st + inside st + Z.of_nat k.
Proof.
  intros Ho Hi. induction k as [|k IH]; intros Hk; cbn zeta.
  - simpl. lia.
  - rewrite Nat.iter_succ.
    destruct IH as (Ho' & Hi' & Hs); [lia|].
    set (st' := Nat.iter k (sample_point RAND_MAX) st) in *.
    destruct (sample_point_increments_one st') as [[Ei Eo] | [Eo Ei]];
      rewrite Ei, Eo; rewrite wrap64_small by lia; lia.
Qed.

End Sampler.

(** C9, as amended.  Every pass of the sampler's loop increments exactly
    one of the slot's two counters.  A call with budget N on a slot holding
    (o, i) returns, and leaves counts whose sum is (o + i) + N modulo 2^64,
    the counters being unsigned 64-bit; the sum is (o + i) + N itself
    whenever that is below 2^64, as it is for the zeroed slots [main] hands
    out. *)
Theorem sampler_adds_its_budget
  (RAND_MAX : Z) (e : entropy) (N o i : Z) (fuel : nat) :
  0 <= N < U64_MOD ->
  0 <= o < U64_MOD ->
  0 <= i < U64_MOD ->
  (Z.to_nat N < fuel)%nat ->
  (forall st,
      let '(randX, randY) := drawn_point RAND_MAX st in
      if in_quadrant randX randY
      then inside (sample_point RAND_MAX st) = wrap64 (inside st + 1)
           /\ outside (sample_point RAND_MAX st) = outside st
      else outside (sample_point RAND_MAX st) = wrap64 (outside st + 1)
           /\ inside (sample_point RAND_MAX st) = inside st)
  /\ exists o' i',
       approximate_pi_mcarlo RAND_MAX fuel N e (o, i) = Some (o', i')
       /\ (o' + i') mod U64_MOD = (o + i + N) mod U64_MOD
       /\ (o + i + N < U64_MOD -> o' + i' = o + i + N).
Proof.
  intros HN Ho Hi Hf.
  split; [apply sample_point_classifies|].
  unfold approximate_pi_mcarlo.
  rewrite for_counter_runs by lia.
  rewrite Z.sub_0_r. cbn [fst snd].
  set (st0 := mk_sampler (initial_seed e) o i).
  eexists. eexists. split; [reflexivity|]. split.
  - pose proof (samples_sum RAND_MAX (Z.to_nat N) st0) as Hs.
    unfold wrap64 in Hs. rewrite Hs. subst st0. cbn [outside inside].
    f_equal. lia.
  - intros Hfit.
    destruct (samples_sum_exact RAND_MAX (Z.to_nat N) st0) as (_ & _ & Hs);
      subst st0; cbn [outside inside] in *; lia.
Qed.

Lemma sampler_adds_its_budget_witness :
  exists o' i',
    approximate_pi_mcarlo 2147483647 1001 1000 (mk_entropy 12345 1700000000) (0, 0)
    = Some (o', i')
    /\ (o' + i') mod U64_MOD = (0 + 0 + 1000) mod U64_MOD
    /\ (0 + 0 + 1000 < U64_MOD -> o' + i' = 0 + 0 + 1000).
Proof.
  apply (proj2 (sampler_adds_its_budget 2147483647 (mk_entropy 12345 1700000000)
                  1000 0 0 1001
                  ltac:(unfold U64_MOD; lia) ltac:(unfold U64_MOD; lia)
                  ltac:(unfold U64_MOD; lia) ltac:(vm_compute; reflexivity))).
Defined.

(** C9, as stated, fails where a counter wraps: on a slot holding the
    largest count twice, one sample leaves (2^64 - 1, 0). *)
Lemma sampler_sum_wraps :
  approximate_pi_mcarlo 2147483647 2 1 (mk_entropy 0 0) (ULONG_MAX, ULONG_MAX)
  = Some (ULONG_MAX, 0)
  /\ ULONG_MAX + 0 <> (ULONG_MAX + ULONG_MAX) + 1.
Proof. split; [vm_compute; reflexivity | unfold ULONG_MAX; lia]. Qed.

(** *** The pseudo-random update *)

Lemma kth_update_shift RAND_MAX seed0 k :
  kth_update RAND_MAX (wrap32 (3812762923 * seed0)) k = kth_update RAND_MAX seed0 (S k).
Proof.
  unfold kth_update.
  assert (E : wrap32 (3812762923 ^ Z.of_nat k * wrap32 (3812762923 * seed0))
              = wrap32 (3812762923 ^ Z.of_nat (S k) * seed0)).
  { unfold wrap32. rewrite Z.mul_mod_idemp_r by (unfold UINT_MOD; lia).
    f_equal. rewrite Nat2Z.inj_succ, Z.pow_succ_r by lia. ring. }
  rewrite E. reflexivity.
Qed.

Lemma kth_update_first RAND_MAX seed0 :
  kth_update RAND_MAX seed0 1
  = (wrap32 (3812762923 * seed0),
     Single.div (Single.of_int (Z.land (wrap32 (3812762923 * seed0)) RAND_MAX))
                (Single.of_int RAND_MAX)).
Proof.
  unfold kth_update. change (Z.of_nat 1) with 1. rewrite Z.pow_1_r. reflexivity.
Qed.

Lemma update_run_closed_form RAND_MAX :
  forall n st,
    update_run RAND_MAX n st = map (kth_update RAND_MAX (seed st)) (seq 1 n).
Proof.
  induction n as [|n IH]; intros st; [reflexivity|].
  cbn [update_run]. unfold fastrand01 at 1. cbn iota beta zeta.
  rewrite IH. cbn [seed].
  change (seq 1 (S n)) with (1%nat :: seq 2 n). cbn [map].
  rewrite kth_update_first. f_equal.
  rewrite <- (seq_shift n 1), map_map.
  apply map_ext. intros k. apply kth_update_shift.
Qed.

(** C8. The update is deterministic: two runs of the update sequence
    whose samplers start from the same seed, whatever else they hold,
    produce the same sequence of seeds and the same sequence of values;
    the k-th seed is 3812762923^k times the first, reduced to 32 bits, and
    the k-th value that seed masked with RAND_MAX over RAND_MAX. *)
Theorem update_sequence_reproducible
  (RAND_MAX : Z) (n : nat) (st1 st2 : sampler) :
  seed st1 = seed st2 ->
  update_run RAND_MAX n st1 = update_run RAND_MAX n st2
  /\ update_run RAND_MAX n st1 = map (kth_update RAND_MAX (seed st1)) (seq 1 n).
Proof.
  intros E. split.
  - rewrite !update_run_closed_form, E. reflexivity.
  - apply update_run_closed_form.
Qed.

Lemma update_sequence_reproducible_witness :
  update_run 2147483647 3 (mk_sampler 12345 0 0)
  = update_run 2147483647 3 (mk_sampler 12345 7 9)
  /\ update_run 2147483647 3 (mk_sampler 12345 0 0)
     = map (kth_update 2147483647 12345) (seq 1 3).
Proof.
  apply (update_sequence_reproducible 2147483647 3
           (mk_sampler 12345 0 0) (mk_sampler 12345 7 9)).
  reflexivity.
Defined.

(** *** The orchestrator *)

(** Whatever the thread count, a completed run has sampled once, on the
    last slot, and has created and joined nothing. *)
Lemma workers_never_created
  RAND_MAX stack_bytes e fuel prog points_arg threads_arg status r :
  main RAND_MAX stack_bytes e fuel [prog; points_arg; threads_arg]
  = Some (Completed status r) ->
  trace r = [OwnSampler (Z.to_nat (strtol threads_arg - 1))].
Proof.
  unfold main.
  change (if_num_threads_gt_1 RAND_MAX) with false. cbn iota.
  destruct (strtol threads_arg <=? 0); [discriminate|].
  destruct ((U64_MOD <=? arrays_bytes RAND_MAX (strtol threads_arg))
            || (stack_bytes <? arrays_bytes RAND_MAX (strtol threads_arg)));
    [discriminate|].
  cbn [run_workers].
  match goal with
  | |- context [approximate_pi_mcarlo ?R ?f ?n ?en ?c] =>
      destruct (approximate_pi_mcarlo R f n en c); [|discriminate]
  end.
  intros E. injection E as _ Er. subst r. reflexivity.
Qed.

(** C1, at the command line [pi_mcarlo 100 4].  The directive
    [#if num_threads > 1] has the value 0, so neither the creation loop nor
    the join and reduction loops are compiled: no worker is spawned, the
    only sampling is the orchestrator's own on the last slot, and the
    totals are that slot's counts.  (The table of four slots takes 64 bytes
    of stack; a run without them is undefined.) *)
Theorem no_worker_is_spawned
  (RAND_MAX stack_bytes : Z) (e : nat -> entropy) (fuel : nat) :
  pp_eval (integer_macros RAND_MAX) (PPgt (PPident "num_threads") (PPnum 1)) = 0
  /\ exists local,
       approximate_pi_mcarlo RAND_MAX (101 + fuel) 100 (e 3%nat) (0, 0) = Some local
       /\ main RAND_MAX stack_bytes e (101 + fuel) ["pi_mcarlo"; "100"; "4"]%string
          = if stack_bytes <? 64 then Some UndefinedRun
            else Some (Completed 0
                         (mk_report [OwnSampler 3]
                                    [(0, 0); (0, 0); (0, 0); local]
                                    (snd local) (fst local))).
Proof.
  split; [reflexivity|].
  assert (Hrun : exists local,
             approximate_pi_mcarlo RAND_MAX (101 + fuel) 100 (e 3%nat) (0, 0) = Some local).
  { unfold approximate_pi_mcarlo.
    rewrite for_counter_runs by (unfold U64_MOD; lia).
    eexists. reflexivity. }
  destruct Hrun as [local Hlocal].
  exists local. split; [exact Hlocal|].
  unfold main.
  change (strtoul "100") with 100.
  change (strtol "4") with 4.
  change (arrays_bytes RAND_MAX 4) with 64.
  change (if_num_threads_gt_1 RAND_MAX) with false.
  change (4 <=? 0) with false. change (U64_MOD <=? 64) with false. cbn iota.
  cbn [orb].
  destruct (stack_bytes <? 64); [reflexivity|].
  change (Z.to_nat (4 - 1)) with 3%nat.
  change (Z.to_nat 4) with 4%nat.
  cbn [run_workers repeat nth].
  rewrite Hlocal. reflexivity.
Qed.

End MCarloProofs.

(** * Further properties of the code *)

(** ** pi_chudnovsky.c: the recursion outside and inside its domain *)

Module ChudnovskyEdges.
Import CInt CIntFacts Libc Chudnovsky ChudnovskyProofs.

Section AnyArithmetic.
Context {F : Type} `{PiFlt F}.

(** A range of width at most 2^k is evaluated within k + 1 nested calls. *)
Lemma binarysplit_within_depth :
  forall (k : nat) a b,
    0 <= a -> a < b -> b <= 2 ^ 63 ->
    b - a <= 2 ^ Z.of_nat k ->
    exists r, chudnovsky_binarysplit (F:=F) (S k) a b = Some r.
Proof.
  induction k as [|k IH]; intros a b Ha Hab Hb Hw.
  - exists (unit_range a). apply binarysplit_unit.
    apply unit_width; try assumption. change (2 ^ Z.of_nat 0) with 1 in Hw. lia.
  - destruct (Z.eq_dec b (a + 1)) as [E | NE].
    + exists (unit_range a). apply binarysplit_unit. apply unit_width; assumption.
    + destruct (midpoint_inside a b Ha ltac:(lia) Hb) as [Hne Hm].
      rewrite binarysplit_split by exact Hne.
      rewrite Nat2Z.inj_succ, Z.pow_succ_r in Hw by lia.
      assert (Hmid : wrap64 (a + b) / 2 = (a + b) / 2)
        by (rewrite wrap64_small by (unfold U64_MOD; lia); reflexivity).
      rewrite Hmid in *.
      destruct (IH a ((a + b) / 2)) as [am Eam]; try lia.
      { Z.div_mod_to_equations. lia. }
      destruct (IH ((a + b) / 2) b) as [mb Emb]; try lia.
      { Z.div_mod_to_equations. lia. }
      rewrite Eam, Emb. eexists. reflexivity.
Qed.

(** A range wider than 2^k is not evaluated within k + 1 nested calls. *)
Lemma binarysplit_beyond_depth :
  forall (k : nat) a b,
    0 <= a -> a < b -> b <= 2 ^ 63 ->
    2 ^ Z.of_nat k < b - a ->
    chudnovsky_binarysplit (F:=F) (S k) a b = None.
Proof.
  induction k as [|k IH]; intros a b Ha Hab Hb Hw.
  - change (2 ^ Z.of_nat 0) with 1 in Hw.
    destruct (midpoint_inside a b Ha ltac:(lia) Hb) as [Hne _].
    rewrite binarysplit_split by exact Hne. reflexivity.
  - destruct (midpoint_inside a b Ha ltac:(lia) Hb) as [Hne Hm].
    rewrite binarysplit_split by exact Hne.
    rewrite Nat2Z.inj_succ, Z.pow_succ_r in Hw by lia.
    assert (Hmid : wrap64 (a + b) / 2 = (a + b) / 2)
      by (rewrite wrap64_small by (unfold U64_MOD; lia); reflexivity).
    rewrite Hmid in *.
    rewrite (IH ((a + b) / 2) b); try lia.
    + destruct (chudnovsky_binarysplit (S k) a ((a + b) / 2)); reflexivity.
    + Z.div_mod_to_equations. lia.
Qed.

(** X1. On a range [a, b) with 0 <= a < b <= 2^63 the recursion returns,
    and its depth is exactly ceil(log2 (b - a)) + 1 nested calls: that many
    suffice and one fewer does not. *)
Theorem binarysplit_depth_is_logarithmic (a b : Z) :
  0 <= a -> a < b -> b <= 2 ^ 63 ->
  (exists r,
      chudnovsky_binarysplit (F:=F) (S (Z.to_nat (Z.log2_up (b - a)))) a b = Some r)
  /\ chudnovsky_binarysplit (F:=F) (Z.to_nat (Z.log2_up (b - a))) a b = None.
Proof.
  intros Ha Hab Hb.
  pose proof (Z.log2_up_nonneg (b - a)) as Hl.
  split.
  - apply binarysplit_within_depth; try assumption.
    rewrite Z2Nat.id by exact Hl.
    destruct (Z.eq_dec (b - a) 1) as [E | NE].
    + rewrite E. simpl. lia.
    + apply Z.log2_up_spec. lia.
  - destruct (Z.eq_dec (b - a) 1) as [E | NE].
    + rewrite E. reflexivity.
    + pose proof (Z.log2_up_spec (b - a) ltac:(lia)) as [Hlo _].
      assert (Hpos : 0 < Z.log2_up (b - a)) by (apply Z.log2_up_pos; lia).
      replace (Z.to_nat (Z.log2_up (b - a)))
        with (S (Z.to_nat (Z.pred (Z.log2_up (b - a))))) by lia.
      apply binarysplit_beyond_depth; try assumption.
      rewrite Z2Nat.id by lia. exact Hlo.
Qed.

(** X2. On an empty or reversed range (b <= a) the recursion never
    reaches its base case: whatever the number of nested calls allowed, it
    has not returned. *)
Theorem binarysplit_needs_a_nonempty_range :
  forall (fuel : nat) (a b : Z),
    0 <= b -> b <= a -> a < 2 ^ 63 ->
    chudnovsky_binarysplit (F:=F) fuel a b = None.
Proof.
  induction fuel as [|fuel IH]; intros a b Hb Hba Ha; [reflexivity|].
  assert (Hne : wrap64 (b - a) <> 1).
  { unfold wrap64, U64_MOD.
    destruct (Z.eq_dec a b) as [E | NE].
    - subst b. rewrite Z.sub_diag. discriminate.
    - replace (b - a) with (b - a + 2 ^ 64 + (- 1) * 2 ^ 64) by ring.
      rewrite Z.mod_add by lia.
      rewrite Z.mod_small by lia. lia. }
  rewrite binarysplit_split by exact Hne.
  rewrite wrap64_small by (unfold U64_MOD; lia).
  rewrite IH; [reflexivity | | |exact Ha].
  - apply Z.div_pos; lia.
  - Z.div_mod_to_equations. lia.
Qed.

End AnyArithmetic.

Lemma binarysplit_depth_is_logarithmic_witness :
  (exists r : result_flts float, chudnovsky_binarysplit 5 0 15 = Some r)
  /\ chudnovsky_binarysplit (F:=float) 4 0 15 = None.
Proof.
  apply (binarysplit_depth_is_logarithmic (F:=float) 0 15); lia.
Defined.

Lemma binarysplit_needs_a_nonempty_range_witness :
  chudnovsky_binarysplit (F:=float) 1000 7 7 = None.
Proof.
  apply (binarysplit_needs_a_nonempty_range (F:=float) 1000 7 7); lia.
Defined.

(** Text that does not begin with a blank, a sign or a digit is read as 0. *)
Lemma strtol_not_a_number (c : ascii) (rest : string) :
  is_space c = false ->
  c <> "-"%char -> c <> "+"%char ->
  digit_val c = None ->
  strtol (String c rest) = 0.
Proof.
  intros Hs Hm Hp Hd. unfold strtol.
  cbn [skip_spaces]. rewrite Hs.
  assert (Hsign : read_sign (String c rest) = (false, String c rest)).
  { unfold read_sign.
    destruct c as [[|] [|] [|] [|] [|] [|] [|] [|]]; try reflexivity;
      exfalso; (apply Hm; reflexivity) || (apply Hp; reflexivity). }
  rewrite Hsign. cbn [read_digits]. rewrite Hd. reflexivity.
Qed.

(** X3. With one argument whose doubled value is a [long], a run of
    pi_chudnovsky that returns does so with status 1 exactly when [strtol]
    reads the argument as negative, and with status 0 otherwise: zero and
    text that is not a number (read as 0) are accepted.  A failing run has
    written nothing to the standard output. *)
Theorem main_rejects_only_negative_counts
  (pow : float -> float -> float) (fuel : nat) (prog arg : string)
  (status : Z) (out err : string) :
  in_long (strtol arg * 2) = true ->
  main pow fuel [prog; arg] = Some (Returned status out err) ->
  (status = EXIT_FAILURE <-> strtol arg < 0)
  /\ (status = EXIT_FAILURE \/ status = EXIT_SUCCESS)
  /\ (status = EXIT_FAILURE -> out = ""%string).
Proof.
  intros Hlong Hrun. unfold main in Hrun. rewrite Hlong in Hrun. cbn [negb] in Hrun.
  destruct (strtol arg * 2 <? 0) eqn:Eneg.
  - apply Z.ltb_lt in Eneg.
    injection Hrun as Es Eo Ee. subst status out err.
    split; [split; intros; [lia | reflexivity]|].
    split; [left; reflexivity | reflexivity].
  - apply Z.ltb_ge in Eneg.
    destruct (binarysplit_terms (strtol arg * 2)) as [n|]; [|discriminate].
    destruct (chudnovsky_binarysplit fuel 0 n) as [res|]; [|discriminate].
    destruct (pi_integer pow (strtol arg * 2) res) as [pi|]; [|discriminate].
    injection Hrun as Es Eo Ee. subst status.
    unfold EXIT_FAILURE, EXIT_SUCCESS.
    split; [split; intros; [discriminate | lia]|].
    split; [right; reflexivity | discriminate].
Qed.

Lemma main_rejects_only_negative_counts_witness :
  (0 = EXIT_FAILURE <-> strtol "abc" < 0)
  /\ (0 = EXIT_FAILURE \/ 0 = EXIT_SUCCESS)
  /\ (0 = EXIT_FAILURE -> ("Pi approximation: 3" ++ nl)%string = ""%string).
Proof.
  apply (main_rejects_only_negative_counts Double.pow_integral 1
           "pi_chudnovsky" "abc" 0 ("Pi approximation: 3" ++ nl) "").
  - vm_compute. reflexivity.
  - vm_compute. reflexivity.
Defined.

End ChudnovskyEdges.

(** ** pi_infseries.c: the loop below its precondition, the hand-over of the
    term count, the formatter's text, failed allocations *)

Module SeriesEdges.
Import CInt Libc InfSeries FormatProofs SeriesProofs.

(** Started at zero or below, [do expr while (--terms)] cannot meet zero:
    it counts down to the least [long] and overflows there. *)
Lemma LOOP_TERMS_below_one {St : Type} (expr : St -> St) :
  forall fuel terms s runs,
    LONG_MIN <= terms <= 0 ->
    LOOP_TERMS fuel expr terms s runs
    = if (Z.to_nat (terms - LONG_MIN) <? fuel)%nat
      then UndefinedBehaviour else OutOfFuel.
Proof.
  induction fuel as [|fuel IH]; intros terms s runs Ht; [reflexivity|].
  cbn [LOOP_TERMS].
  destruct (Z.eq_dec terms LONG_MIN) as [E | NE].
  - subst terms. reflexivity.
  - assert (El : in_long (terms - 1) = true).
    { unfold in_long, LONG_MIN, LONG_MAX in *.
      apply andb_true_intro. split; apply Z.leb_le; lia. }
    rewrite El. cbn [negb].
    assert (E0 : (terms - 1 =? 0) = false) by (apply Z.eqb_neq; lia).
    rewrite E0, IH by lia.
    replace (Z.to_nat (terms - LONG_MIN))
      with (S (Z.to_nat (terms - 1 - LONG_MIN))) by (unfold LONG_MIN in *; lia).
    reflexivity.
Qed.

(** X4. The precondition N >= 1 of the series functions is a real one:
    called with a count N <= 0, none of the five returns a value.  Its loop
    runs N - LONG_MIN + 1 times and then decrements the least [long], which
    is undefined behaviour. *)
Theorem series_need_a_positive_count (d : series_func_data) (N : Z) (fuel : nat) :
  In d series_function_data ->
  LONG_MIN <= N -> N <= 0 ->
  address d fuel N
  = if (Z.to_nat (N - LONG_MIN) <? fuel)%nat then UndefinedBehaviour else OutOfFuel.
Proof.
  intros Hin Hlo Hhi.
  assert (Hf : forall St (ret : St -> float) (expr : St -> St) s,
             finish ret (LOOP_TERMS fuel expr N s 0)
             = if (Z.to_nat (N - LONG_MIN) <? fuel)%nat
               then UndefinedBehaviour else OutOfFuel).
  { intros St ret expr s. rewrite LOOP_TERMS_below_one by lia.
    destruct (Z.to_nat (N - LONG_MIN) <? fuel)%nat; reflexivity. }
  unfold series_function_data in Hin. cbn [In] in Hin.
  destruct Hin as [E | [E | [E | [E | [E | []]]]]]; subst d; cbn [address];
    [unfold wallis_product | unfold vietes_formula | unfold nilakantha
    | unfold madhava_leibniz_formula | unfold newton_arctan_pi]; apply Hf.
Qed.

Lemma series_need_a_positive_count_witness :
  wallis_product 3 (LONG_MIN + 2) = UndefinedBehaviour.
Proof.
  apply (series_need_a_positive_count (mk_series wallis_product "Wallis product")
           (LONG_MIN + 2) 3).
  - left. reflexivity.
  - unfold LONG_MIN. lia.
  - unfold LONG_MIN. lia.
Defined.

(** A series entered with a count of zero or below: the call made for an
    index of the table. *)
Lemma series_call_below_one (i : nat) (n : Z) (fuel : nat) :
  (i < 5)%nat ->
  LONG_MIN <= n <= 0 ->
  series_call fuel (Z.of_nat i) n
  = if (Z.to_nat (n - LONG_MIN) <? fuel)%nat then UndefinedBehaviour else OutOfFuel.
Proof.
  intros Hi Hn. unfold series_call.
  change count_series_functions with 5.
  assert (E : (Z.of_nat i <? 0) || (5 <=? Z.of_nat i) = false).
  { apply orb_false_intro; [apply Z.ltb_ge | apply Z.leb_gt]; lia. }
  rewrite E, Nat2Z.id.
  assert (Hf : forall St (ret : St -> float) (expr : St -> St) s,
             finish ret (LOOP_TERMS fuel expr n s 0)
             = if (Z.to_nat (n - LONG_MIN) <? fuel)%nat
               then UndefinedBehaviour else OutOfFuel).
  { intros St ret expr s. rewrite LOOP_TERMS_below_one by lia.
    destruct (Z.to_nat (n - LONG_MIN) <? fuel)%nat; reflexivity. }
  destruct i as [|[|[|[|[|i]]]]]; try lia; cbn [nth series_function_data address];
    [unfold wallis_product | unfold vietes_formula | unfold nilakantha
    | unfold madhava_leibniz_formula | unfold newton_arctan_pi];
    rewrite Hf; destruct (Z.to_nat (n - LONG_MIN) <? fuel)%nat; reflexivity.
Qed.

(** X5. In single mode [main] hands the term count to [do_series], whose
    parameter is an [int].  A count N below 2^31 reaches the chosen series
    unchanged: the series runs N passes, its line is written and the
    program exits with status 0.  A count from 2^31 to 2^32, which [main]
    has accepted as positive, reaches the series as N - 2^32, zero or
    negative: its loop cannot stop, so [main] does not exit, and the run is
    undefined once the count has gone down to the least [long]. *)
Theorem term_count_passes_through_an_int
  (malloc_ok : nat -> bool) (fuel : nat) (prog choice terms_arg : string) :
  first_char choice <> "a"%char ->
  1 <= strtol choice <= 5 ->
  let N := strtol terms_arg in
  let d := nth (Z.to_nat (strtol choice - 1)) series_function_data
               (mk_series wallis_product "") in
  (1 <= N < 2 ^ 31 ->
   (Z.to_nat N <= fuel)%nat ->
   exists r,
     address d fuel N = Value r
     /\ iterations r = N
     /\ main malloc_ok fuel [prog; choice; terms_arg]
        = Some (Exited EXIT_SUCCESS
                  (chosen_header N (given_name d) ++ [SeriesResult (given_name d) (result r)])))
  /\ (2 ^ 31 <= N <= 2 ^ 32 ->
      main malloc_ok fuel [prog; choice; terms_arg]
      = if (Z.to_nat (N - 2 ^ 32 - LONG_MIN) <? fuel)%nat
        then Some (UndefinedAfter (chosen_header N (given_name d)))
        else None).
Proof.
  intros Hna Hidx N d.
  assert (E : Ascii.eqb (first_char choice) "a"%char = false)
    by (apply Ascii.eqb_neq; exact Hna).
  set (i := Z.to_nat (strtol choice - 1)) in *.
  assert (Hi : (i < 5)%nat) by (subst i; lia).
  assert (Ei : strtol choice - 1 = Z.of_nat i) by (subst i; lia).
  assert (Emain : 0 < N ->
            main malloc_ok fuel [prog; choice; terms_arg]
            = match do_series fuel (Z.of_nat i) (to_int N) with
              | Value lines => Some (Exited EXIT_SUCCESS (chosen_header N (given_name d) ++ lines))
              | UndefinedBehaviour => Some (UndefinedAfter (chosen_header N (given_name d)))
              | OutOfFuel => None
              end).
  { intros HN. unfold main. rewrite E. cbn [negb andb].
    change count_series_functions with 5.
    assert (E1 : (strtol choice <? 1) = false) by (apply Z.ltb_ge; lia).
    assert (E2 : (strtol choice >? 5) = false)
      by (rewrite Z.gtb_ltb; apply Z.ltb_ge; lia).
    rewrite E1, E2. cbn [orb].
    assert (E3 : (strtol terms_arg <=? 0) = false) by (apply Z.leb_gt; exact HN).
    rewrite E3, Ei, Nat2Z.id. reflexivity. }
  split.
  - intros HN Hf.
    pose proof (do_series_returns i N fuel Hi HN Hf) as Hd. cbv zeta in Hd.
    destruct Hd as [r (Hr & Hit & Hd)].
    exists r. split; [exact Hr|]. split; [exact Hit|].
    rewrite Emain by lia. rewrite Hd. reflexivity.
  - intros HN. rewrite Emain by lia.
    unfold do_series. rewrite to_int_wraps by lia.
    rewrite series_call_below_one by (unfold LONG_MIN; lia).
    destruct (Z.to_nat (N - 2 ^ 32 - LONG_MIN) <? fuel)%nat; reflexivity.
Qed.

Lemma term_count_passes_through_an_int_witness :
  main (fun _ => true) 1000 ["pi_infseries"; "4"; "2147483648"]%string
  = if (Z.to_nat (strtol "2147483648" - 2 ^ 32 - LONG_MIN) <? 1000)%nat
    then Some (UndefinedAfter
                 (chosen_header (strtol "2147483648")
                    (given_name (nth (Z.to_nat (strtol "4" - 1)) series_function_data
                                     (mk_series wallis_product "")))))
    else None.
Proof.
  apply (proj2 (term_count_passes_through_an_int (fun _ => true) 1000
                  "pi_infseries" "4" "2147483648"
                  ltac:(vm_compute; discriminate)
                  ltac:(vm_compute; split; discriminate))).
  vm_compute. split; discriminate.
Defined.

(** *** The formatter's text read back *)

Import SpecWords.

Lemma digit_cases d :
  0 <= d <= 9 ->
  d = 0 \/ d = 1 \/ d = 2 \/ d = 3 \/ d = 4 \/ d = 5 \/ d = 6 \/ d = 7 \/ d = 8 \/ d = 9.
Proof. lia. Qed.

Ltac each_digit d H :=
  destruct (digit_cases d H) as [E|[E|[E|[E|[E|[E|[E|[E|[E|E]]]]]]]]]; subst d.

(** A digit's character is no comma, blank or sign, and reads back as the
    digit. *)
Lemma digit_char_facts d :
  0 <= d <= 9 ->
  is_comma (digit_char d) = false
  /\ is_space (digit_char d) = false
  /\ read_sign (String (digit_char d) ""%string) = (false, String (digit_char d) ""%string)
  /\ digit_val (digit_char d) = Some d.
Proof. intros H. each_digit d H; repeat split; reflexivity. Qed.

Lemma dec_digits_is_digits n :
  0 <= n -> Forall (fun c => exists d, 0 <= d <= 9 /\ c = digit_char d) (dec_digits n).
Proof.
  intros Hn. generalize Hn. pattern n.
  apply Z_lt_induction; [clear n Hn | exact Hn].
  intros n IH Hn. rewrite dec_digits_unfold.
  destruct (n <? 10) eqn:E.
  - apply Z.ltb_lt in E. constructor; [|constructor].
    exists n. split; [lia | reflexivity].
  - apply Z.ltb_ge in E.
    assert (Hq : 0 <= n / 10 < n)
      by (split; [apply Z.div_pos; lia | apply Z.div_lt; lia]).
    apply Forall_app. split; [apply (IH _ Hq (proj1 Hq))|].
    constructor; [|constructor].
    exists (n mod 10). split; [|reflexivity].
    pose proof (Z.mod_pos_bound n 10 ltac:(lia)). lia.
Qed.

Lemma digits_keep_without_commas l :
  Forall (fun c => exists d, 0 <= d <= 9 /\ c = digit_char d) l ->
  without_commas l = l /\ count_commas l = 0%nat.
Proof.
  unfold without_commas, count_commas.
  induction 1 as [|c l [d [Hd Ec]] _ [IH1 IH2]]; [split; reflexivity|].
  subst c. cbn [filter].
  destruct (digit_char_facts d Hd) as (Ec & _).
  rewrite Ec. cbn [negb]. rewrite IH1. split; [reflexivity | exact IH2].
Qed.

Lemma three_digits_of n :
  0 <= n ->
  Forall (fun c => exists d, 0 <= d <= 9 /\ c = digit_char d)
         [digit_char (n / 100 mod 10); digit_char (n / 10 mod 10); digit_char (n mod 10)].
Proof.
  intros Hn.
  repeat constructor; eexists; (split; [|reflexivity]);
    match goal with |- 0 <= ?x mod 10 <= 9 =>
      pose proof (Z.mod_pos_bound x 10 ltac:(lia)); lia end.
Qed.

(** The digits of a number read back as the number, after any digits
    already read. *)
Lemma read_digits_of_dec n :
  0 <= n ->
  forall acc tail,
    read_digits (string_of_list_ascii (dec_digits n ++ tail)) acc
    = read_digits (string_of_list_ascii tail)
        (acc * 10 ^ Z.of_nat (List.length (dec_digits n)) + n).
Proof.
  intros Hn. generalize Hn. pattern n.
  apply Z_lt_induction; [clear n Hn | exact Hn].
  intros n IH Hn acc tail. rewrite dec_digits_unfold.
  destruct (n <? 10) eqn:E.
  - apply Z.ltb_lt in E.
    cbn [app string_of_list_ascii read_digits List.length].
    destruct (digit_char_facts n ltac:(lia)) as (_ & _ & _ & Ed). rewrite Ed.
    f_equal. change (Z.of_nat 1) with 1. lia.
  - apply Z.ltb_ge in E.
    assert (Hq : 0 <= n / 10 < n)
      by (split; [apply Z.div_pos; lia | apply Z.div_lt; lia]).
    rewrite <- app_assoc. rewrite (IH _ Hq (proj1 Hq)).
    cbn [app string_of_list_ascii read_digits].
    pose proof (Z.mod_pos_bound n 10 ltac:(lia)) as Hm.
    destruct (digit_char_facts (n mod 10) ltac:(lia)) as (_ & _ & _ & Ed). rewrite Ed.
    f_equal. rewrite length_app. cbn [List.length].
    rewrite Nat2Z.inj_add. change (Z.of_nat 1) with 1.
    rewrite Z.pow_add_r by lia. rewrite Z.pow_1_r.
    pose proof (Z.div_mod n 10 ltac:(lia)). lia.
Qed.

Lemma strtol_of_dec n :
  0 <= n <= LONG_MAX ->
  strtol (string_of_list_ascii (dec_digits n)) = n.
Proof.
  intros Hn.
  pose proof (dec_digits_is_digits n ltac:(lia)) as Hall.
  pose proof (read_digits_of_dec n ltac:(lia) 0 []) as Hread.
  rewrite app_nil_r in Hread. cbn [string_of_list_ascii read_digits] in Hread.
  destruct (dec_digits n) as [|c l] eqn:Ed.
  - exfalso. exact (dec_digits_nonempty n Ed).
  - inversion Hall as [|? ? [d [Hd Ec]] _]; subst.
    destruct (digit_char_facts d Hd) as (_ & Hsp & Hsg & _).
    unfold strtol. cbn [string_of_list_ascii skip_spaces]. rewrite Hsp.
    assert (Hsign : read_sign (String (digit_char d) (string_of_list_ascii l))
                    = (false, String (digit_char d) (string_of_list_ascii l))).
    { unfold read_sign in *. destruct (digit_char d) as [[|] [|] [|] [|] [|] [|] [|] [|]];
        try reflexivity; discriminate. }
    rewrite Hsign.
    change (String (digit_char d) (string_of_list_ascii l))
      with (string_of_list_ascii (digit_char d :: l)).
    rewrite Hread. unfold LONG_MAX, LONG_MIN in *. lia.
Qed.

(** X6. For a number n from 0 to LONG_MAX, the text the formatter writes
    is the decimal digits of n with a comma count of (digits - 1) / 3 and
    nothing else: with the commas taken out it is the digits of n, and
    [strtol] reads that back as n. *)
Theorem thousands_text_reads_back (n : Z) :
  0 <= n -> n <= LONG_MAX ->
  without_commas (print_thousands_sepd_num n) = dec_digits n
  /\ count_commas (print_thousands_sepd_num n)
     = ((List.length (dec_digits n) - 1) / 3)%nat
  /\ strtol (string_of_list_ascii (without_commas (print_thousands_sepd_num n))) = n.
Proof.
  intros Hn Hmax.
  assert (Hboth : without_commas (print_thousands_sepd_num n) = dec_digits n
                  /\ count_commas (print_thousands_sepd_num n)
                     = ((List.length (dec_digits n) - 1) / 3)%nat).
  { clear Hmax. generalize Hn. pattern n.
    apply Z_lt_induction; [clear n Hn | exact Hn].
    intros n IH Hn. rewrite print_thousands_unfold.
    destruct (1000 <=? n) eqn:E.
    - apply Z.leb_le in E.
      assert (Hq : 0 <= n / 1000 < n)
        by (split; [apply Z.div_pos; lia | apply Z.div_lt; lia]).
      destruct (IH _ Hq (proj1 Hq)) as [IH1 IH2].
      rewrite printf_03ld_three by (apply Z.mod_pos_bound; lia).
      destruct (mod_1000_digits n Hn) as (E1 & E2 & E3). rewrite E1, E2, E3.
      destruct (digits_keep_without_commas _ (three_digits_of n Hn)) as [K1 K2].
      rewrite (dec_digits_last_three n E).
      assert (Hw : forall A L, without_commas (A ++ ","%char :: L)
                               = without_commas A ++ without_commas L)
        by (intros; unfold without_commas; rewrite filter_app; reflexivity).
      assert (Hc : forall A L, count_commas (A ++ ","%char :: L)
                               = (count_commas A + S (count_commas L))%nat)
        by (intros; unfold count_commas; rewrite filter_app, length_app; reflexivity).
      rewrite Hw, Hc, IH1, IH2, K1, K2. split; [reflexivity|].
      rewrite !length_app. cbn [List.length].
      assert (Hlen : (1 <= List.length (dec_digits (n / 1000)))%nat).
      { destruct (dec_digits (n / 1000)) eqn:Ed; [|cbn; lia].
        exfalso. exact (dec_digits_nonempty _ Ed). }
      replace (List.length (dec_digits (n / 1000)) + 3 - 1)%nat
        with (List.length (dec_digits (n / 1000)) - 1 + 1 * 3)%nat by lia.
      rewrite Nat.div_add by lia. lia.
    - apply Z.leb_gt in E.
      unfold printf_ld.
      assert (E0 : (n <? 0) = false) by (apply Z.ltb_ge; lia). rewrite E0.
      destruct (digits_keep_without_commas _ (dec_digits_is_digits n Hn)) as [K1 K2].
      split; [exact K1|]. rewrite K2.
      destruct (dec_digits_below_1000 n ltac:(lia)) as [D | [D | D]];
        rewrite D; reflexivity. }
  destruct Hboth as [H1 H2].
  split; [exact H1|]. split; [exact H2|].
  rewrite H1. apply strtol_of_dec. lia.
Qed.

Lemma thousands_text_reads_back_witness :
  without_commas (print_thousands_sepd_num 1234567) = dec_digits 1234567
  /\ count_commas (print_thousands_sepd_num 1234567)
     = ((List.length (dec_digits 1234567) - 1) / 3)%nat
  /\ strtol (string_of_list_ascii (without_commas (print_thousands_sepd_num 1234567)))
     = 1234567.
Proof.
  apply (thousands_text_reads_back 1234567).
  - lia.
  - unfold LONG_MAX. lia.
Defined.

(** *** A failed allocation in "all" mode *)

(** X7. In "all" mode with a term count that is a positive [int], if the
    allocation for series i is the first to fail, that series gets no
    thread and a diagnostic in its place, while every series whose
    allocation succeeds gets its thread with its own index and the term
    count.  The join loop then joins the handles before i, in order, and
    reaches handle i, which was never written: the run is undefined from
    there on. *)
Theorem failed_allocation_skips_its_series
  (malloc_ok : nat -> bool) (fuel : nat) (prog choice terms_arg : string) (i : nat) :
  first_char choice = "a"%char ->
  0 < strtol terms_arg < 2 ^ 31 ->
  (Z.to_nat (strtol terms_arg) <= fuel)%nat ->
  (i < 5)%nat ->
  malloc_ok i = false ->
  (forall k, (k < i)%nat -> malloc_ok k = true) ->
  exists created,
    main malloc_ok fuel [prog; choice; terms_arg]
    = Some (UndefinedAfter (chosen_header (strtol terms_arg) "All"
                              ++ created ++ map JoinThread (seq 0 i)))
    /\ List.length created = 5%nat
    /\ (forall k, (k < 5)%nat -> malloc_ok k = true ->
          nth k created (Out "")
          = CreateThread k (mk_task (Z.of_nat k) (strtol terms_arg)))
    /\ (forall k, (k < 5)%nat -> malloc_ok k = false ->
          exists text, nth k created (Out "") = Err text).
Proof.
  intros Ha HN Hf Hi Hfail Hbefore.
  exists (create_threads malloc_ok series_function_data 0 (strtol terms_arg)).
  assert (E : Ascii.eqb (first_char choice) "a"%char = true)
    by (apply Ascii.eqb_eq; exact Ha).
  assert (Hjoin : forall rest,
             join_threads malloc_ok fuel (strtol terms_arg) (seq 0 i ++ i :: rest)
             = Some (map JoinThread (seq 0 i), false)).
  { intros rest.
    assert (Hgen : forall (pre : list nat),
               (forall k, In k pre -> (k < i)%nat) ->
               join_threads malloc_ok fuel (strtol terms_arg) (pre ++ i :: rest)
               = Some (map JoinThread pre, false)).
    { induction pre as [|k pre IH]; intros Hpre.
      - cbn [app join_threads map]. rewrite Hfail. reflexivity.
      - cbn [app join_threads map].
        assert (Hk : (k < i)%nat) by (apply Hpre; left; reflexivity).
        rewrite (Hbefore k Hk).
        destruct (worker_returns k (strtol terms_arg) fuel ltac:(lia) ltac:(lia) Hf)
          as [lines Hw].
        rewrite Hw, IH by (intros j Hj; apply Hpre; right; exact Hj).
        reflexivity. }
    apply Hgen. intros k Hk. apply in_seq in Hk. lia. }
  split.
  - unfold main. rewrite E. cbn [negb andb].
    assert (E3 : (strtol terms_arg <=? 0) = false) by (apply Z.leb_gt; lia).
    rewrite E3.
    change (List.length series_function_data) with 5%nat.
    assert (Hseq : seq 0 5 = seq 0 i ++ i :: seq (S i) (5 - S i))
      by (destruct i as [|[|[|[|[|i]]]]]; try lia; reflexivity).
    rewrite Hseq, Hjoin. reflexivity.
  - cbn [create_threads series_function_data].
    split; [reflexivity|]. split.
    + intros k Hk Hok.
      destruct k as [|[|[|[|[|k]]]]]; try lia; cbn [nth]; rewrite Hok; reflexivity.
    + intros k Hk Hno.
      destruct k as [|[|[|[|[|k]]]]]; try lia; cbn [nth]; rewrite Hno;
        eexists; reflexivity.
Qed.

Lemma failed_allocation_skips_its_series_witness :
  exists created,
    main (fun k => negb (Nat.eqb k 2)) 1000 ["pi_infseries"; "all"; "1000"]%string
    = Some (UndefinedAfter (chosen_header (strtol "1000") "All"
                              ++ created ++ map JoinThread (seq 0 2)))
    /\ List.length created = 5%nat
    /\ (forall k, (k < 5)%nat -> negb (Nat.eqb k 2) = true ->
          nth k created (Out "")
          = CreateThread k (mk_task (Z.of_nat k) (strtol "1000")))
    /\ (forall k, (k < 5)%nat -> negb (Nat.eqb k 2) = false ->
          exists text, nth k created (Out "") = Err text).
Proof.
  apply (failed_allocation_skips_its_series (fun k => negb (Nat.eqb k 2)) 1000
           "pi_infseries" "all" "1000" 2).
  - reflexivity.
  - vm_compute. split; reflexivity.
  - vm_compute. reflexivity.
  - lia.
  - reflexivity.
  - intros k Hk. destruct k as [|[|k]]; [reflexivity | reflexivity | lia].
Defined.

End SeriesEdges.

(** ** pi_mcarlo.c: what a run reports, and the generator's seeds *)

Module MCarloEdges.
Import CInt CIntFacts Libc MCarlo MCarloProofs.

Lemma digit_val_range c d : digit_val c = Some d -> 0 <= d <= 9.
Proof.
  unfold digit_val.
  destruct ((48 <=? Z.of_nat (nat_of_ascii c)) && (Z.of_nat (nat_of_ascii c) <=? 57)) eqn:E;
    [|discriminate].
  apply andb_prop in E. destruct E as [E1 E2].
  apply Z.leb_le in E1, E2. intros H. injection H as H. lia.
Qed.

Lemma read_digits_nonneg s : forall acc, 0 <= acc -> 0 <= read_digits s acc.
Proof.
  induction s as [|c r IH]; intros acc Hacc; cbn [read_digits]; [exact Hacc|].
  destruct (digit_val c) as [d|] eqn:Ed; [|exact Hacc].
  apply IH. pose proof (digit_val_range c d Ed). lia.
Qed.

(** [strtoul] gives a value of the unsigned 64-bit type. *)
Lemma strtoul_range s : 0 <= strtoul s < U64_MOD.
Proof.
  unfold strtoul.
  destruct (read_sign (skip_spaces s)) as [neg r].
  pose proof (read_digits_nonneg r 0 ltac:(lia)) as Hm.
  destruct (ULONG_MAX <? read_digits r 0) eqn:E.
  - unfold ULONG_MAX, U64_MOD. lia.
  - apply Z.ltb_ge in E. destruct neg.
    + unfold wrap64, U64_MOD. apply Z.mod_pos_bound. lia.
    + unfold ULONG_MAX, U64_MOD in *. lia.
Qed.

(** X8. For a thread count K >= 1 whose table of 16 K bytes fits the stack
    [main] has left, a run with N points per thread completes with status 0
    and reports counts that are non-negative and add up to N, not to K
    times N; its table has K slots and every slot but the last is still
    zero. *)
Theorem run_reports_one_budget
  (RAND_MAX stack_bytes : Z) (e : nat -> entropy)
  (prog points_arg threads_arg : string) (fuel : nat) :
  1 <= strtol threads_arg ->
  16 * strtol threads_arg <= stack_bytes ->
  stack_bytes < U64_MOD ->
  (Z.to_nat (strtoul points_arg) < fuel)%nat ->
  exists r,
    main RAND_MAX stack_bytes e fuel [prog; points_arg; threads_arg]
    = Some (Completed 0 r)
    /\ 0 <= points_inside r /\ 0 <= points_outside r
    /\ points_inside r + points_outside r = strtoul points_arg
    /\ List.length (thread_results r) = Z.to_nat (strtol threads_arg)
    /\ forall k, (k < Z.to_nat (strtol threads_arg) - 1)%nat ->
         nth k (thread_results r) (0, 0) = (0, 0).
Proof.
  intros HK Hstack Hsize Hfuel.
  pose proof (strtoul_range points_arg) as HN.
  set (N := strtoul points_arg) in *.
  set (K := strtol threads_arg) in *.
  set (last := Z.to_nat (K - 1)).
  set (st := Nat.iter (Z.to_nat N) (sample_point RAND_MAX)
               (mk_sampler (initial_seed (e last)) 0 0)).
  assert (Hrun : approximate_pi_mcarlo RAND_MAX fuel N (e last) (0, 0)
                 = Some (outside st, inside st)).
  { unfold approximate_pi_mcarlo. rewrite for_counter_runs by lia.
    rewrite Z.sub_0_r. reflexivity. }
  destruct (samples_sum_exact RAND_MAX (Z.to_nat N)
              (mk_sampler (initial_seed (e last)) 0 0)) as (Ho & Hi & Hs);
    cbn [outside inside]; try lia.
  fold st in Ho, Hi, Hs. cbn [outside inside] in Hs.
  exists (mk_report [OwnSampler last]
                    (set_slot last (outside st, inside st) (repeat (0, 0) (Z.to_nat K)))
                    (inside st) (outside st)).
  split.
  - unfold main. fold N K.
    assert (Eb : arrays_bytes RAND_MAX K = 16 * K).
    { unfold arrays_bytes. change (if_num_threads_gt_1 RAND_MAX) with false.
      cbn iota. lia. }
    rewrite Eb.
    change (if_num_threads_gt_1 RAND_MAX) with false. cbn iota.
    assert (E : (K <=? 0) = false) by (apply Z.leb_gt; lia). rewrite E.
    assert (E1 : (U64_MOD <=? 16 * K) = false) by (apply Z.leb_gt; lia).
    assert (E2 : (stack_bytes <? 16 * K) = false) by (apply Z.ltb_ge; lia).
    rewrite E1, E2. cbn [orb].
    cbn [run_workers]. fold last.
    rewrite nth_repeat, Hrun. reflexivity.
  - cbn [points_inside points_outside thread_results].
    split; [exact Hi|]. split; [exact Ho|]. split; [lia|].
    unfold set_slot. split.
    + rewrite length_app, length_firstn, repeat_length.
      cbn [List.length]. rewrite length_skipn, repeat_length.
      subst last. lia.
    + intros k Hk.
      rewrite app_nth1
        by (rewrite length_firstn, repeat_length; subst last; lia).
      rewrite nth_firstn.
      assert (Ek : (k <? last)%nat = true) by (apply Nat.ltb_lt; subst last; lia).
      rewrite Ek. apply nth_repeat.
Qed.

Lemma run_reports_one_budget_witness :
  exists r,
    main 2147483647 8388608 (fun k => mk_entropy (Z.of_nat k) 1700000000) 101
         ["pi_mcarlo"; "100"; "8"]%string = Some (Completed 0 r)
    /\ 0 <= points_inside r /\ 0 <= points_outside r
    /\ points_inside r + points_outside r = strtoul "100"
    /\ List.length (thread_results r) = Z.to_nat (strtol "8")
    /\ forall k, (k < Z.to_nat (strtol "8") - 1)%nat ->
         nth k (thread_results r) (0, 0) = (0, 0).
Proof.
  apply (run_reports_one_budget 2147483647 8388608
           (fun k => mk_entropy (Z.of_nat k) 1700000000)
           "pi_mcarlo" "100" "8" 101).
  - vm_compute. discriminate.
  - vm_compute. discriminate.
  - vm_compute. reflexivity.
  - vm_compute. reflexivity.
Defined.

(** X9. The seed update is a bijection of the 32-bit values: multiplying
    the new seed by 918385027 modulo 2^32 gives back the old one, so two
    different seeds never lead to the same seed. *)
Theorem seed_update_is_invertible (RAND_MAX s1 s2 : Z) :
  0 <= s1 < UINT_MOD ->
  0 <= s2 < UINT_MOD ->
  wrap32 (fastrand_inverse * snd (fastrand01 RAND_MAX s1)) = s1
  /\ (snd (fastrand01 RAND_MAX s1) = snd (fastrand01 RAND_MAX s2) -> s1 = s2).
Proof.
  assert (Hinv : forall s, 0 <= s < UINT_MOD ->
                   wrap32 (fastrand_inverse * snd (fastrand01 RAND_MAX s)) = s).
  { intros s Hs. unfold fastrand01. cbn [snd]. unfold wrap32.
    rewrite Z.mul_mod_idemp_r by (unfold UINT_MOD; lia).
    rewrite Z.mul_assoc.
    rewrite <- Z.mul_mod_idemp_l by (unfold UINT_MOD; lia).
    change ((fastrand_inverse * 3812762923) mod UINT_MOD) with 1.
    rewrite Z.mul_1_l. apply Z.mod_small. exact Hs. }
  intros H1 H2. split; [apply Hinv; exact H1|].
  intros E. rewrite <- (Hinv s1 H1), <- (Hinv s2 H2), E. reflexivity.
Qed.

Lemma seed_update_is_invertible_witness :
  wrap32 (fastrand_inverse * snd (fastrand01 2147483647 12345)) = 12345
  /\ (snd (fastrand01 2147483647 12345) = snd (fastrand01 2147483647 54321)
      -> 12345 = 54321).
Proof.
  apply (seed_update_is_invertible 2147483647 12345 54321); unfold UINT_MOD; lia.
Defined.

(** *** Seeds the mask hides *)

Section HiddenSeeds.
Variable RAND_MAX : Z.
(** The two values of [RAND_MAX] C libraries use. *)
Hypothesis known_RAND_MAX : RAND_MAX = 32767 \/ RAND_MAX = 2147483647.

Lemma mask_is_a_power_of_two :
  exists k, 0 <= k <= 32 /\ RAND_MAX = Z.ones k /\ RAND_MAX + 1 = 2 ^ k.
Proof.
  destruct known_RAND_MAX as [E | E]; rewrite E;
    [exists 15 | exists 31]; repeat split; lia.
Qed.

(** A seed that is a multiple of RAND_MAX + 1 stays one. *)
Lemma hidden_seed_stays_hidden s :
  s mod (RAND_MAX + 1) = 0 ->
  wrap32 (3812762923 * s) mod (RAND_MAX + 1) = 0.
Proof.
  intros Hs. destruct mask_is_a_power_of_two as (k & Hk & _ & Ek).
  rewrite Ek in *. unfold wrap32, UINT_MOD.
  rewrite Z.mod_mod_divide
    by (exists (2 ^ (32 - k)); rewrite <- Z.pow_add_r by lia; f_equal; lia).
  rewrite Z.mul_mod by lia. rewrite Hs, Z.mul_0_r. apply Z.mod_0_l. lia.
Qed.

Lemma hidden_seed_draws_zero s :
  s mod (RAND_MAX + 1) = 0 ->
  fastrand01 RAND_MAX s = (S754_zero false, wrap32 (3812762923 * s)).
Proof.
  intros Hs. unfold fastrand01. f_equal.
  pose proof (hidden_seed_stays_hidden s Hs) as Hn.
  destruct mask_is_a_power_of_two as (k & Hk & E1 & Ek).
  assert (Hland : Z.land (wrap32 (3812762923 * s)) RAND_MAX = 0).
  { rewrite E1, Z.land_ones by lia. rewrite <- Ek. exact Hn. }
  rewrite Hland.
  destruct known_RAND_MAX as [E | E]; rewrite E; vm_compute; reflexivity.
Qed.

Lemma hidden_seed_sample st :
  seed st mod (RAND_MAX + 1) = 0 ->
  seed (sample_point RAND_MAX st) mod (RAND_MAX + 1) = 0
  /\ outside (sample_point RAND_MAX st) = outside st
  /\ inside (sample_point RAND_MAX st) = wrap64 (inside st + 1).
Proof.
  intros Hs. unfold sample_point.
  rewrite (hidden_seed_draws_zero _ Hs).
  rewrite (hidden_seed_draws_zero _ (hidden_seed_stays_hidden _ Hs)).
  change (in_quadrant (S754_zero false) (S754_zero false)) with true.
  cbn [seed outside inside].
  split; [|split; reflexivity].
  apply hidden_seed_stays_hidden, hidden_seed_stays_hidden, Hs.
Qed.

Lemma hidden_seed_samples (k : nat) st :
  seed st mod (RAND_MAX + 1) = 0 ->
  0 <= inside st < U64_MOD ->
  let st' := Nat.iter k (sample_point RAND_MAX) st in
  seed st' mod (RAND_MAX + 1) = 0
  /\ outside st' = outside st
  /\ inside st' = wrap64 (inside st + Z.of_nat k).
Proof.
  intros Hs Hi. induction k as [|k IH]; cbn zeta.
  - cbn [Nat.iter]. split; [exact Hs|]. split; [reflexivity|].
    rewrite Z.add_0_r, wrap64_small by exact Hi. reflexivity.
  - rewrite Nat.iter_succ. cbn zeta in IH. destruct IH as (IH1 & IH2 & IH3).
    destruct (hidden_seed_sample _ IH1) as (H1 & H2 & H3).
    split; [exact H1|]. split; [rewrite H2; exact IH2|].
    rewrite H3, IH3. unfold wrap64.
    rewrite Z.add_mod_idemp_l by (unfold U64_MOD; lia).
    f_equal. lia.
Qed.

Lemma hidden_seed_run (n : nat) st :
  seed st mod (RAND_MAX + 1) = 0 ->
  map snd (update_run RAND_MAX n st) = repeat (S754_zero false) n.
Proof.
  revert st. induction n as [|n IH]; intros st Hs; [reflexivity|].
  cbn [update_run]. rewrite (hidden_seed_draws_zero _ Hs).
  cbn [map snd repeat]. f_equal.
  apply IH. cbn [seed]. apply hidden_seed_stays_hidden, Hs.
Qed.

(** X10. The generator has no increment, so the seeds the mask hides are
    absorbing: when the seed a sampler derives from [rand()] and
    [time(NULL)] is a multiple of RAND_MAX + 1 (0 is one), every value the
    generator returns is 0, every point is (0, 0) and is counted inside,
    and the call leaves the outside counter as it was. *)
Theorem hidden_seed_puts_every_point_inside
  (e : entropy) (N o i : Z) (fuel n : nat) :
  initial_seed e mod (RAND_MAX + 1) = 0 ->
  0 <= N < U64_MOD ->
  0 <= i < U64_MOD ->
  (Z.to_nat N < fuel)%nat ->
  map snd (update_run RAND_MAX n (mk_sampler (initial_seed e) o i))
  = repeat (S754_zero false) n
  /\ approximate_pi_mcarlo RAND_MAX fuel N e (o, i) = Some (o, wrap64 (i + N)).
Proof.
  intros Hs HN Hi Hfuel. split; [apply hidden_seed_run; exact Hs|].
  unfold approximate_pi_mcarlo. rewrite for_counter_runs by lia.
  rewrite Z.sub_0_r. cbn [fst snd].
  destruct (hidden_seed_samples (Z.to_nat N) (mk_sampler (initial_seed e) o i))
    as (_ & Ho & Hin); cbn [seed inside]; try assumption.
  cbn zeta in Ho, Hin. rewrite Ho, Hin. cbn [outside inside].
  rewrite Z2Nat.id by lia. reflexivity.
Qed.

End HiddenSeeds.

Lemma hidden_seed_puts_every_point_inside_witness :
  map snd (update_run 2147483647 6 (mk_sampler (initial_seed (mk_entropy 47560 1703936000)) 0 0))
  = repeat (S754_zero false) 6
  /\ approximate_pi_mcarlo 2147483647 1001 1000 (mk_entropy 47560 1703936000) (0, 0)
     = Some (0, wrap64 (0 + 1000)).
Proof.
  apply (hidden_seed_puts_every_point_inside 2147483647 (or_intror eq_refl)
           (mk_entropy 47560 1703936000) 1000 0 0 1001 6).
  - vm_compute. reflexivity.
  - unfold U64_MOD. lia.
  - unfold U64_MOD. lia.
  - vm_compute. reflexivity.
Defined.

End MCarloEdges.
